(** * SharedMemory: a pool allocator over a fixed buffer, a shared-memory
      owner and a shared-memory client

    Shallow embedding of [SharedMemory.h] (namespace [SharedMemory]):
    the classes [MemoryManager], [RemoteMemory] and [MemoryClient], followed
    by the properties of the specification that are about them.

    Conventions of the embedding:
    - [size_t] values are [Z] in the range [0, 2^64); every [+] and [-] on
      them is followed by [size_t_wrap], the reduction modulo [2^64];
    - [int] values are [Z]; the only arithmetic on them is [x++], written
      [int_wrap (x + 1)]: two's complement wrap-around on 32 bits, which is
      what the compiled code does where C++ leaves the overflow undefined;
    - a [void*] is an address in [Z], [NULL] is [0];
    - the process memory is a total map from addresses to bytes; caller
      buffers are lists of bytes;
    - a [std::list] is a [list]; an iterator into it is the position it
      designates, given as the elements before it, the element, and the
      elements after it;
    - every method takes the object ([self]) and returns the result together
      with the object after the call; methods that touch the mapped bytes
      also take and return the memory;
    - the methods of [RemoteMemory] and [MemoryClient] work on the memory
      together with the protection of every address, which [mmap] and
      [munmap] change; a [std::memcpy] into or out of a range that is not
      mapped accordingly faults, and the call then has no result;
    - the system calls are a parameter of the methods that make them;
    - the destructors of [MemoryManager] and [RemoteMemory] are not
      modelled: no property of these classes runs past the lifetime of the
      object; the destructor of [MemoryClient] is [Client.destructor]. *)

From Stdlib Require Import ZArith List Lia Bool.
From Stdlib.Strings Require Import Ascii String Byte.
Import ListNotations.
Open Scope Z_scope.

(** ** Machine integers, memory *)

Definition size_t_wrap (z : Z) : Z := z mod 2 ^ 64.

Definition is_size_t (z : Z) : Prop := 0 <= z < 2 ^ 64.

Definition int_wrap (z : Z) : Z := (z + 2 ^ 31) mod 2 ^ 32 - 2 ^ 31.

Definition NULL : Z := 0.

Definition heap : Type := Z -> byte.

(** [std::memcpy(dst, src, n)] between two ranges of the process memory.
    The source bytes are those of the memory before the call; C++ leaves the
    result undefined when the two ranges overlap, and no property below
    depends on the bytes such a copy leaves. *)
Definition memcpy (h : heap) (dst src n : Z) : heap :=
  fun a => if (dst <=? a) && (a <? dst + n) then h (src + (a - dst)) else h a.

(** [std::memcpy(dst, buf, n)] from a caller buffer into the memory.  The
    buffer is expected to hold [n] bytes: reading past its end is undefined
    in C++, here the missing bytes read as zero. *)
Definition memcpy_from (h : heap) (dst : Z) (buf : list byte) (n : Z) : heap :=
  fun a =>
    if (dst <=? a) && (a <? dst + n)
    then nth (Z.to_nat (a - dst)) buf x00
    else h a.

(** The [n] bytes of the memory that start at [src]. *)
Definition load_bytes (h : heap) (src n : Z) : list byte :=
  map (fun i => h (src + Z.of_nat i)) (seq 0 (Z.to_nat n)).

(** [std::memcpy(buf, src, n)] from the memory into a caller buffer: the
    first [n] bytes of the buffer are replaced. *)
Definition memcpy_to (buf : list byte) (h : heap) (src n : Z) : list byte :=
  load_bytes h src n ++ skipn (Z.to_nat n) buf.

(** Modelled from the spec: the macros [AbortIf] and [AbortIfNot] of
    [abort.h], which is not among the sources.  [AbortIf(cond, ret)] leaves
    the enclosing function with [ret] when [cond] holds, [AbortIfNot] when it
    does not; otherwise the function goes on. *)
Notation "'AbortIf' c 'ret' r ;; k" := (if c then r else k)
  (at level 10, c at level 9, r at level 9, k at level 200, only parsing).
Notation "'AbortIfNot' c 'ret' r ;; k" := (if negb c then r else k)
  (at level 10, c at level 9, r at level 9, k at level 200, only parsing).

(** ** Lists and iterators *)

(** A [std::list<A>::iterator] that designates an element: the elements
    before it, the element, the elements after it. *)
Definition iterator (A : Type) : Type := (list A * A * list A)%type.

(** The loop [for (iter = l.begin(); iter != l.end(); ++iter)] that stops at
    the first element that satisfies [p]: the position it stops at, if any. *)
Fixpoint scan {A : Type} (p : A -> bool) (l : list A) : option (iterator A) :=
  match l with
  | [] => None
  | b :: rest =>
      if p b then Some ([], b, rest)
      else match scan p rest with
           | Some (before, x, after) => Some (b :: before, x, after)
           | None => None
           end
  end.

(** ** class MemoryManager *)

Module MemoryManager.

Record Block : Type := mkBlock {
  id : Z;      (* int: memory block ID *)
  offset : Z;  (* size_t: buffer offset *)
  size : Z     (* size_t: block size *)
}.

Record t : Type := mk {
  _addr : Z;
  _in_use : list Block;
  _is_init : bool;
  _last_index : Z;
  _size : Z;
  _vacant : list Block
}.

(** The constructor. *)
Definition new : t := mk NULL [] false 0 0 [].

Definition lookup (self : t) (id0 : Z) : option (iterator Block) :=
  scan (fun b => id b =? id0) (_in_use self).

Definition _allocate (self : t) (iter : iterator Block) (size0 : Z) : Z * t :=
  let '(before, v, after) := iter in
  let rem := size_t_wrap (size v - size0) in
  let in_use' := _in_use self ++ [mkBlock (_last_index self) (offset v) size0] in
  let vacant' :=
    if rem =? 0 then before ++ after
    else before ++ mkBlock (id v) (size_t_wrap (offset v + size0)) rem :: after in
  (_last_index self,
   mk (_addr self) in_use' (_is_init self) (int_wrap (_last_index self + 1))
      (_size self) vacant').

(** The loop of [defrag] over [_in_use], from the cursor [offset0]. *)
Fixpoint defrag_loop (addr : Z) (l : list Block) (offset0 : Z) (h : heap)
  : list Block * Z * heap :=
  match l with
  | [] => ([], offset0, h)
  | b :: rest =>
      let h' :=
        if negb (offset0 =? offset b)
        then memcpy h (addr + offset0) (addr + offset b) (size b)
        else h in
      let '(rest', offset', h'') :=
        defrag_loop addr rest (size_t_wrap (offset0 + size b)) h' in
      (mkBlock (id b) offset0 (size b) :: rest', offset', h'')
  end.

Definition defrag (self : t) (h : heap) : t * heap :=
  let '(in_use', offset0, h') := defrag_loop (_addr self) (_in_use self) 0 h in
  (mk (_addr self) in_use' (_is_init self) (_last_index self) (_size self)
      [mkBlock (-1) offset0 (size_t_wrap (_size self - offset0))],
   h').

Definition is_empty (l : list Block) : bool :=
  match l with [] => true | _ => false end.

Definition allocate (self : t) (h : heap) (size0 : Z) : Z * t * heap :=
  AbortIfNot (_is_init self) ret (-1, self, h) ;;
  AbortIf (size0 >? _size self) ret (-1, self, h) ;;
  if (size0 =? 0) || is_empty (_vacant self) then (-1, self, h)
  else
    match scan (fun b => size b >=? size0) (_vacant self) with
    | Some iter =>
        let '(r, self') := _allocate self iter size0 in (r, self', h)
    | None =>
        let '(self1, h1) := defrag self h in
        match _vacant self1 with
        | v :: after =>
            if size v >=? size0
            then let '(r, self') := _allocate self1 ([], v, after) size0 in
                 (r, self', h1)
            else (-1, self1, h1)
        | [] => (-1, self1, h1)
        end
    end.

Definition free (self : t) (id0 : Z) : bool * t :=
  AbortIfNot (_is_init self) ret (false, self) ;;
  match lookup self id0 with
  | None => (false, self)
  | Some (before, b, after) =>
      (true,
       mk (_addr self) (before ++ after) (_is_init self) (_last_index self)
          (_size self) (_vacant self ++ [mkBlock (-1) (offset b) (size b)]))
  end.

Definition init (self : t) (addr size0 : Z) : bool * t :=
  AbortIf (_is_init self) ret (false, self) ;;
  AbortIf ((addr =? NULL) || (size0 =? 0)) ret (false, self) ;;
  (true,
   mk addr (_in_use self) true (_last_index self) size0
      (_vacant self ++ [mkBlock (-1) 0 size0])).

(** [read] is [const]: the manager is unchanged; the result is the return
    value and the caller buffer after the call. *)
Definition read (self : t) (h : heap) (id0 : Z) (buf : list byte) (nbytes : Z)
  : bool * list byte :=
  AbortIfNot (_is_init self) ret (false, buf) ;;
  match lookup self id0 with
  | None => (false, buf)
  | Some (_, b, _) =>
      AbortIf (size b <? nbytes) ret (false, buf) ;;
      let addr := _addr self + offset b in
      (true, memcpy_to buf h addr nbytes)
  end.

(** [write] is [const]: the manager is unchanged; the result is the return
    value and the memory after the call. *)
Definition write (self : t) (h : heap) (id0 : Z) (buf : list byte) (nbytes : Z)
  : bool * heap :=
  AbortIfNot (_is_init self) ret (false, h) ;;
  match lookup self id0 with
  | None => (false, h)
  | Some (_, b, _) =>
      AbortIf (size b <? nbytes) ret (false, h) ;;
      let addr := _addr self + offset b in
      (true, memcpy_from h addr buf nbytes)
  end.

End MemoryManager.

(** ** Access permissions, and the system interface *)

Inductive access_t : Type :=
  | none        (* = 0, no access *)
  | read_only   (* = 1, read-only access *)
  | read_write. (* = 2, read-write access *)

Definition access_eqb (a b : access_t) : bool :=
  match a, b with
  | none, none | read_only, read_only | read_write, read_write => true
  | _, _ => false
  end.

(** The constants of [<fcntl.h>] and [<sys/mman.h>] the code uses, with their
    values on Linux. *)
Definition O_RDONLY : Z := 0.
Definition O_RDWR : Z := 2.
Definition O_CREAT : Z := 64.
Definition O_EXCL : Z := 128.
Definition S_IRWXU : Z := 448.
Definition S_IRGRP : Z := 32.
Definition S_IRWXG : Z := 56.
Definition S_IROTH : Z := 4.
Definition S_IRWXO : Z := 7.
Definition PROT_NONE : Z := 0.
Definition PROT_READ : Z := 1.
Definition PROT_WRITE : Z := 2.
Definition MAP_SHARED : Z := 1.
Definition MS_SYNC : Z := 4.
Definition MS_INVALIDATE : Z := 2.

(** The system calls a method makes, as the operating system answers them
    during that call, and the value of [errno] where the method reads it.
    Nothing is assumed about the answers. *)
Record posix : Type := mkPosix {
  shm_open : string -> Z -> Z -> Z;
  ftruncate : Z -> Z -> Z;
  mmap : Z -> Z -> Z -> Z -> Z -> Z -> Z;
  errno : Z;
  munmap : Z -> Z -> Z;
  shm_unlink : string -> Z;
  close : Z -> Z;
  mlock : Z -> Z -> Z;
  munlock : Z -> Z -> Z;
  msync : Z -> Z -> Z -> Z
}.

(** [name[0] != '/'] followed by the choice between [name] and
    [std::string("/") + name]. *)
Definition real_name (name : string) : string :=
  match name with
  | String c _ => if Ascii.eqb c "/"%char then name else String.append "/" name
  | EmptyString => String.append "/" name
  end.

(** ** The address space *)

(** The memory of the process as the two classes below see it: its bytes;
    the protection of every address, [PROT_NONE] where nothing is mapped;
    and whether an address, when it is mapped, is backed by a page of the
    object behind the mapping.  The part of a mapping that lies past the
    end of its object is not (an access there raises [SIGBUS]); the classes
    never learn the size of an object they open, so the model does not decide
    it: it is a parameter of the state. *)
Record memory : Type := mkMemory {
  mem_bytes : heap;
  mem_prot : Z -> Z;
  mem_backed : Z -> bool
}.

(** The same address space over other bytes. *)
Definition with_bytes (m : memory) (h : heap) : memory :=
  mkMemory h (mem_prot m) (mem_backed m).

Definition MAP_FAILED : Z := -1.

(** The effect of an [mmap(NULL, size, prot, MAP_SHARED, fd, 0)] that
    returned [addr]: unless it failed, the [size] bytes at [addr] are mapped
    with protection [prot].  The bytes the mapping shows are those of the
    shared object; they are left unconstrained. *)
Definition after_mmap (m : memory) (addr size0 prot : Z) : memory :=
  if addr =? MAP_FAILED then m
  else mkMemory (mem_bytes m)
                (fun a => if (addr <=? a) && (a <? addr + size0) then prot
                          else mem_prot m a)
                (mem_backed m).

(** The effect of a [munmap(addr, size)] that returned [rc]: unless it
    failed, nothing is mapped any more in the [size] bytes at [addr]. *)
Definition after_munmap (m : memory) (rc addr size0 : Z) : memory :=
  if rc =? -1 then m
  else mkMemory (mem_bytes m)
                (fun a => if (addr <=? a) && (a <? addr + size0) then PROT_NONE
                          else mem_prot m a)
                (mem_backed m).

(** Every one of the [n] bytes at [addr] is mapped with the protection bit
    [need] ([PROT_READ] to read it, [PROT_WRITE] to write it) and backed. *)
Definition accessible (m : memory) (need addr n : Z) : bool :=
  forallb (fun i => negb (Z.land (mem_prot m (addr + Z.of_nat i)) need =? 0) &&
                    mem_backed m (addr + Z.of_nat i))
          (seq 0 (Z.to_nat n)).

(** What a call that may fault gives: nothing when it faults (the process is
    killed), its result otherwise. *)
Inductive outcome (A : Type) : Type :=
  | Faults
  | Returns (a : A).
Arguments Faults {A}.
Arguments Returns {A} a.

(** The address [MemoryManager::read] and [MemoryManager::write] pass to
    [std::memcpy] for the block [id0], when they reach it. *)
Definition block_address (self : MemoryManager.t) (id0 : Z) : Z :=
  match MemoryManager.lookup self id0 with
  | Some (_, b, _) => MemoryManager._addr self + MemoryManager.offset b
  | None => NULL
  end.

(** [MemoryManager::read] on a pool laid over a mapping.  The call reaches
    [std::memcpy] exactly when it returns [true]; the copy faults unless the
    [nbytes] bytes of the block may be read. *)
Definition read_mapped (self : MemoryManager.t) (m : memory) (id0 : Z)
           (buf : list byte) (nbytes : Z) : outcome (bool * list byte) :=
  let '(ok, buf') := MemoryManager.read self (mem_bytes m) id0 buf nbytes in
  if ok
  then if accessible m PROT_READ (block_address self id0) nbytes
       then Returns (true, buf')
       else Faults
  else Returns (false, buf').

(** [MemoryManager::write] on a pool laid over a mapping: the copy faults
    unless the [nbytes] bytes of the block may be written. *)
Definition write_mapped (self : MemoryManager.t) (m : memory) (id0 : Z)
           (buf : list byte) (nbytes : Z) : outcome (bool * memory) :=
  let '(ok, h') := MemoryManager.write self (mem_bytes m) id0 buf nbytes in
  if ok
  then if accessible m PROT_WRITE (block_address self id0) nbytes
       then Returns (true, with_bytes m h')
       else Faults
  else Returns (false, m).

(** ** class RemoteMemory *)

Module RemoteMemory.

Record t : Type := mk {
  _access : access_t;
  _addr : Z;
  _fd : Z;
  _is_init : bool;
  _manager : MemoryManager.t;
  _mem_id : Z;
  _name : string;
  _size : Z
}.

(** The constructor. *)
Definition new : t :=
  mk none NULL (-1) false MemoryManager.new (-1) EmptyString 0.

Definition set_fd (self : t) (fd : Z) : t :=
  mk (_access self) (_addr self) fd (_is_init self) (_manager self)
     (_mem_id self) (_name self) (_size self).

Definition set_addr (self : t) (addr : Z) : t :=
  mk (_access self) addr (_fd self) (_is_init self) (_manager self)
     (_mem_id self) (_name self) (_size self).

Definition set_manager (self : t) (m : MemoryManager.t) : t :=
  mk (_access self) (_addr self) (_fd self) (_is_init self) m
     (_mem_id self) (_name self) (_size self).

Definition set_mem_id (self : t) (mem_id : Z) : t :=
  mk (_access self) (_addr self) (_fd self) (_is_init self) (_manager self)
     mem_id (_name self) (_size self).

Definition set_is_init (self : t) (b : bool) : t :=
  mk (_access self) (_addr self) (_fd self) b (_manager self)
     (_mem_id self) (_name self) (_size self).

(** The private [init]: assigns the members. *)
Definition init (self : t) (access : access_t) (name : string) (size0 : Z)
  : bool * t :=
  AbortIf (_is_init self) ret (false, self) ;;
  AbortIfNot (0 <? Z.of_nat (String.length name)) ret (false, self) ;;
  (true,
   mk access (_addr self) (-1) (_is_init self) (_manager self)
      (_mem_id self) (real_name name) size0).

Definition create (os : posix) (self : t) (m : memory)
           (name : string) (access : access_t) (size0 : Z)
  : bool * t * memory :=
  let '(ok, self) := init self access name size0 in
  AbortIfNot ok ret (false, self, m) ;;
  let oflag := Z.lor (Z.lor O_CREAT O_RDWR) O_EXCL in
  let mode := S_IRWXU in
  let prot := Z.lor PROT_READ PROT_WRITE in
  let mode :=
    match _access self with
    | read_only => Z.lor mode (Z.lor S_IRGRP S_IROTH)
    | read_write => Z.lor mode (Z.lor S_IRWXG S_IRWXO)
    | none => mode
    end in
  let fd := shm_open os (_name self) oflag mode in
  AbortIf (fd =? -1) ret (false, self, m) ;;
  let self := set_fd self fd in
  AbortIf (ftruncate os (_fd self) (_size self) =? -1) ret (false, self, m) ;;
  let self :=
    set_addr self (mmap os NULL (_size self) prot MAP_SHARED (_fd self) 0) in
  let m := after_mmap m (_addr self) (_size self) prot in
  AbortIf (negb (errno os =? 0)) ret (false, self, m) ;;
  let '(ok, mgr) :=
    MemoryManager.init (_manager self) (_addr self) (_size self) in
  let self := set_manager self mgr in
  AbortIfNot ok ret (false, self, m) ;;
  let '(mem_id, mgr, h) :=
    MemoryManager.allocate (_manager self) (mem_bytes m) (_size self) in
  let m := with_bytes m h in
  let self := set_mem_id (set_manager self mgr) mem_id in
  AbortIf (_mem_id self =? -1) ret (false, self, m) ;;
  (true, set_is_init self true, m).

Definition destroy (os : posix) (self : t) (m : memory) : bool * t * memory :=
  AbortIfNot (_is_init self) ret (false, self, m) ;;
  let rc := munmap os (_addr self) (_size self) in
  let m := after_munmap m rc (_addr self) (_size self) in
  AbortIf (rc =? -1) ret (false, self, m) ;;
  AbortIf (shm_unlink os (_name self) =? -1) ret (false, self, m) ;;
  AbortIf (close os (_fd self) =? -1) ret (false, self, m) ;;
  (true, set_is_init self false, m).

(** [read] is [const]: return value and caller buffer after the call, unless
    the copy faults. *)
Definition read (self : t) (m : memory) (buf : list byte) (size0 : Z)
  : outcome (bool * list byte) :=
  AbortIfNot (_is_init self) ret (Returns (false, buf)) ;;
  match read_mapped (_manager self) m (_mem_id self) buf size0 with
  | Faults => Faults
  | Returns (ok, buf') =>
      AbortIfNot ok ret (Returns (false, buf')) ;;
      Returns (true, buf')
  end.

(** [write] is [const]: return value and memory after the call, unless the
    copy faults. *)
Definition write (os : posix) (self : t) (m : memory) (buf : list byte)
           (size0 : Z) : outcome (bool * memory) :=
  AbortIfNot (_is_init self) ret (Returns (false, m)) ;;
  AbortIf (mlock os (_addr self) (_size self) =? -1) ret (Returns (false, m)) ;;
  match write_mapped (_manager self) m (_mem_id self) buf size0 with
  | Faults => Faults
  | Returns (ok, m) =>
      AbortIfNot ok ret (Returns (false, m)) ;;
      AbortIf (munlock os (_addr self) (_size self) =? -1)
        ret (Returns (false, m)) ;;
      AbortIf (msync os (_addr self) (_size self) (Z.lor MS_SYNC MS_INVALIDATE)
               =? -1) ret (Returns (false, m)) ;;
      Returns (true, m)
  end.

End RemoteMemory.

(** ** class MemoryClient *)

Module MemoryClient.

Record Server : Type := mkServer {
  access : access_t;
  addr : Z;
  fd : Z;
  id : Z;
  manager : MemoryManager.t;
  mem_id : Z;
  name : string;
  size : Z
}.

(** The constructor of [Server]. *)
Definition Server_new (_access : access_t) (_addr _fd _id : Z)
           (_name : string) (_size : Z) : Server :=
  mkServer _access _addr _fd _id MemoryManager.new (-1) _name _size.

Definition set_manager (s : Server) (m : MemoryManager.t) : Server :=
  mkServer (access s) (addr s) (fd s) (id s) m (mem_id s) (name s) (size s).

Definition set_mem_id (s : Server) (i : Z) : Server :=
  mkServer (access s) (addr s) (fd s) (id s) (manager s) i (name s) (size s).

Definition Server_init (s : Server) : bool * Server :=
  let '(ok, m) := MemoryManager.init (manager s) (addr s) (size s) in
  let s := set_manager s m in
  AbortIfNot ok ret (false, s) ;;
  (true, s).

Record t : Type := mk {
  _last_id : Z;
  _servers : list Server
}.

(** The constructor. *)
Definition new : t := mk 0 [].

Definition lookup (self : t) (id0 : Z) : option (iterator Server) :=
  scan (fun s => id s =? id0) (_servers self).

(** [attach]: the result is the return value, the value of the output
    parameter [id] after the call ([id0] is its value before), the client
    and the memory. *)
Definition attach (os : posix) (self : t) (m : memory)
           (name0 : string) (access0 : access_t) (size0 : Z) (id0 : Z)
  : bool * Z * t * memory :=
  let '(oflag, prot) :=
    match access0 with
    | read_only => (O_RDONLY, PROT_READ)
    | read_write => (O_RDWR, Z.lor PROT_READ PROT_WRITE)
    | none => (0, PROT_NONE)
    end in
  AbortIf (Z.of_nat (String.length name0) =? 0) ret (false, id0, self, m) ;;
  let real := real_name name0 in
  AbortIf (existsb (fun s => String.eqb (name s) real) (_servers self))
    ret (false, id0, self, m) ;;
  let fd0 := shm_open os real oflag 0 in
  AbortIf (fd0 =? -1) ret (false, id0, self, m) ;;
  let addr0 := mmap os NULL size0 prot MAP_SHARED fd0 0 in
  let m := after_mmap m addr0 size0 prot in
  AbortIf (negb (errno os =? 0)) ret (false, id0, self, m) ;;
  let server := Server_new access0 addr0 fd0 (_last_id self) real size0 in
  let '(ok, server) := Server_init server in
  AbortIfNot ok ret (false, id0, self, m) ;;
  let '(m_id, mgr, h) :=
    MemoryManager.allocate (manager server) (mem_bytes m) size0 in
  let m := with_bytes m h in
  let server := set_mem_id (set_manager server mgr) m_id in
  AbortIf (mem_id server <? 0) ret (false, id0, self, m) ;;
  (true, _last_id self,
   mk (int_wrap (_last_id self + 1)) (_servers self ++ [server]), m).

Definition destroy (os : posix) (self : t) (m : memory) (id0 : Z)
  : bool * t * memory :=
  match lookup self id0 with
  | None => (false, self, m)
  | Some (before, s, after) =>
      let rc := munmap os (addr s) (size s) in
      let m := after_munmap m rc (addr s) (size s) in
      AbortIf (rc =? -1) ret (false, self, m) ;;
      AbortIf (close os (fd s) =? -1) ret (false, self, m) ;;
      (true, mk (_last_id self) (before ++ after), m)
  end.

(** [read] is [const]: return value and caller buffer after the call, unless
    the copy faults. *)
Definition read (self : t) (m : memory) (id0 : Z) (buf : list byte) (size0 : Z)
  : outcome (bool * list byte) :=
  match lookup self id0 with
  | None => Returns (false, buf)
  | Some (_, s, _) =>
      match read_mapped (manager s) m (mem_id s) buf size0 with
      | Faults => Faults
      | Returns (ok, buf') =>
          AbortIfNot ok ret (Returns (false, buf')) ;;
          Returns (true, buf')
      end
  end.

(** [write] is [const]: return value and memory after the call, unless the
    copy faults. *)
Definition write (os : posix) (self : t) (m : memory) (id0 : Z)
           (buf : list byte) (size0 : Z) : outcome (bool * memory) :=
  match lookup self id0 with
  | None => Returns (false, m)
  | Some (_, s, _) =>
      AbortIf (negb (access_eqb (access s) read_write))
        ret (Returns (false, m)) ;;
      AbortIf (mlock os (addr s) (size s) =? -1) ret (Returns (false, m)) ;;
      match write_mapped (manager s) m (mem_id s) buf size0 with
      | Faults => Faults
      | Returns (ok, m) =>
          AbortIfNot ok ret (Returns (false, m)) ;;
          AbortIf (munlock os (addr s) (size s) =? -1)
            ret (Returns (false, m)) ;;
          AbortIf (msync os (addr s) (size s) (Z.lor MS_SYNC MS_INVALIDATE)
                   =? -1) ret (Returns (false, m)) ;;
          Returns (true, m)
      end
  end.

End MemoryClient.

(** ** Vocabulary of the properties *)

Module Pool.
Import MemoryManager.

(** The byte at offset [p] of the buffer lies in block [b]. *)
Definition covers (p : Z) (b : Block) : bool :=
  (offset b <=? p) && (p <? offset b + size b).

(** The number of blocks of [l] in which byte [p] lies. *)
Fixpoint cover_count (p : Z) (l : list Block) : nat :=
  match l with
  | [] => 0%nat
  | b :: rest => ((if covers p b then 1 else 0) + cover_count p rest)%nat
  end.

(** The sum of the sizes of the blocks of [l]. *)
Fixpoint total_size (l : list Block) : Z :=
  match l with
  | [] => 0
  | b :: rest => size b + total_size rest
  end.

Definition within (C : Z) (b : Block) : Prop :=
  0 <= offset b /\ 0 <= size b /\ offset b + size b <= C.

(** The blocks of [l] partition the byte range [0, C): none leaves the
    range, and every byte of the range lies in exactly one of them (it lies
    in one: no gap; in no more than one: no overlap). *)
Definition partition_of (C : Z) (l : list Block) : Prop :=
  Forall (within C) l /\
  forall p, 0 <= p < C -> cover_count p l = 1%nat.

(** The blocks of [l] follow each other from offset [o] on. *)
Fixpoint contiguous_from (o : Z) (l : list Block) : Prop :=
  match l with
  | [] => True
  | b :: rest => offset b = o /\ contiguous_from (o + size b) rest
  end.

(** [b] is the block an id designates: the first block of [_in_use] that has
    the id. *)
Definition first_in_use (self : t) (id0 : Z) (b : Block) : Prop :=
  exists before after,
    _in_use self = before ++ b :: after /\ id b = id0 /\
    Forall (fun x => id x <> id0) before.

(** The calls a user of the allocator can make, [defrag] included. *)
Inductive call : Type :=
  | Init (addr size0 : Z)
  | Allocate (size0 : Z)
  | Free (id0 : Z)
  | Defrag
  | Read (id0 : Z) (buf : list byte) (nbytes : Z)
  | Write (id0 : Z) (buf : list byte) (nbytes : Z).

(** The arguments of type [size_t] are in the range of the type. *)
Definition call_ok (c : call) : Prop :=
  match c with
  | Init _ s | Allocate s => is_size_t s
  | Read _ _ n | Write _ _ n => is_size_t n
  | Free _ | Defrag => True
  end.

(** The allocator and the memory after the call. *)
Definition exec (st : t * heap) (c : call) : t * heap :=
  let '(self, h) := st in
  match c with
  | Init a s => (snd (init self a s), h)
  | Allocate s => let '(_, self', h') := allocate self h s in (self', h')
  | Free i => (snd (free self i), h)
  | Defrag => defrag self h
  | Read _ _ _ => (self, h)
  | Write i buf n => (self, snd (write self h i buf n))
  end.

Definition run (st : t * heap) (calls : list call) : t * heap :=
  fold_left exec calls st.

(** The states of an allocator of capacity [C]: those a successful [init]
    of a new allocator and then any calls lead to. *)
Definition reachable (C : Z) (self : t) (h : heap) : Prop :=
  exists (addr : Z) (self0 : t) (h0 : heap) (calls : list call),
    init new addr C = (true, self0) /\
    Forall call_ok calls /\
    run (self0, h0) calls = (self, h).

(** The invariant of an initialized pool of capacity [C]. *)
Definition Inv (C : Z) (self : t) : Prop :=
  _is_init self = true /\ _size self = C /\
  partition_of C (_in_use self ++ _vacant self) /\
  total_size (_in_use self) + total_size (_vacant self) = C.

(** What is left of vacancy [v] once [size0] bytes are carved from its low
    end: a smaller vacancy if the remainder is positive, nothing if it is
    zero. *)
Definition remainder (v : Block) (size0 : Z) : list Block :=
  if size0 <? size v
  then [mkBlock (id v) (offset v + size0) (size v - size0)]
  else [].

(** [defrag] in the words of the specification: walk [_in_use] in order;
    each block is copied to the cursor unless it is already there, its
    offset becomes the cursor, the cursor advances by its size.  The state
    of the walk is the blocks already placed, the cursor and the memory. *)
Definition relocate (addr : Z) (st : list Block * Z * heap) (b : Block)
  : list Block * Z * heap :=
  let '(placed, cursor, h) := st in
  (placed ++ [mkBlock (id b) cursor (size b)],
   cursor + size b,
   if cursor =? offset b then h
   else memcpy h (addr + cursor) (addr + offset b) (size b)).

(** After the walk the vacancies are replaced by exactly one block that
    covers [cursor, capacity). *)
Definition defrag_spec (self : t) (h : heap) : t * heap :=
  let '(placed, cursor, h') :=
    fold_left (relocate (_addr self)) (_in_use self) ([], 0, h) in
  (mk (_addr self) placed (_is_init self) (_last_index self) (_size self)
      [mkBlock (-1) cursor (_size self - cursor)],
   h').

(** The second attempt of [allocate] in the words of the specification:
    defragmentation is run once and the request is retried against the
    vacancies it leaves; if there is still no fit, the request fails. *)
Definition defrag_then_retry (self : t) (h : heap) (size0 : Z)
  : Z * t * heap :=
  let '(self1, h1) := defrag self h in
  match scan (fun b => size b >=? size0) (_vacant self1) with
  | Some iter =>
      let '(r, self2) := _allocate self1 iter size0 in (r, self2, h1)
  | None => (-1, self1, h1)
  end.

(** A memory of zero bytes, and a pool of ten bytes mapped at address 4096
    and filled by two blocks, the second of which sits below the first. *)
Definition zero_heap : heap := fun _ => x00.

Definition fresh10 : t := mk 4096 [] true 0 10 [mkBlock (-1) 0 10].

Definition full10 : t :=
  fst (run (fresh10, zero_heap) [Allocate 4; Allocate 6; Free 0; Allocate 4]).

(** The same pool with one block in use between two vacancies. *)
Definition frag10 : t :=
  fst (run (fresh10, zero_heap) [Allocate 4; Allocate 3; Free 0]).

End Pool.

(** The calls a user of a [RemoteMemory] object can make, each with the
    answers of the operating system during the call. *)
Module Owner.

Inductive call : Type :=
  | Create (os : posix) (name : string) (access : access_t) (size0 : Z)
  | Destroy (os : posix)
  | Read (buf : list byte) (size0 : Z)
  | Write (os : posix) (buf : list byte) (size0 : Z).

(** The object and the memory after the call.  A call that faults ends the
    process; the state is then kept as it was, which only adds states to
    those the properties are proved of. *)
Definition exec (st : RemoteMemory.t * memory) (c : call)
  : RemoteMemory.t * memory :=
  let '(self, m) := st in
  match c with
  | Create os name access size0 =>
      let '(_, self', m') := RemoteMemory.create os self m name access size0 in
      (self', m')
  | Destroy os =>
      let '(_, self', m') := RemoteMemory.destroy os self m in (self', m')
  | Read _ _ => (self, m)
  | Write os buf size0 =>
      match RemoteMemory.write os self m buf size0 with
      | Returns (_, m') => (self, m')
      | Faults => (self, m)
      end
  end.

Definition run (st : RemoteMemory.t * memory) (calls : list call)
  : RemoteMemory.t * memory :=
  fold_left exec calls st.

End Owner.

(** An operating system that grants every request: [shm_open] returns the
    descriptor 3, [mmap] maps at address 4096, [errno] is 0 and every other
    call returns 0. *)
Definition granting_os : posix :=
  mkPosix (fun _ _ _ => 3) (fun _ _ => 0) (fun _ _ _ _ _ _ => 4096) 0
          (fun _ _ => 0) (fun _ => 0) (fun _ => 0)
          (fun _ _ => 0) (fun _ _ => 0) (fun _ _ _ => 0).

(** As [granting_os], except that [shm_unlink] fails. *)
Definition unlink_failing_os : posix :=
  mkPosix (fun _ _ _ => 3) (fun _ _ => 0) (fun _ _ _ _ _ _ => 4096) 0
          (fun _ _ => 0) (fun _ => -1) (fun _ => 0)
          (fun _ _ => 0) (fun _ _ => 0) (fun _ _ _ => 0).

(** As [granting_os], except that [close] fails. *)
Definition close_failing_os : posix :=
  mkPosix (fun _ _ _ => 3) (fun _ _ => 0) (fun _ _ _ _ _ _ => 4096) 0
          (fun _ _ => 0) (fun _ => 0) (fun _ => -1)
          (fun _ _ => 0) (fun _ _ => 0) (fun _ _ _ => 0).

(** A memory of zero bytes in which nothing is mapped, and in which every
    mapping will be backed over its whole length. *)
Definition zero_memory : memory :=
  mkMemory Pool.zero_heap (fun _ => PROT_NONE) (fun _ => true).

(** The bytes of [hello]. *)
Definition hello : list byte := [x68; x65; x6c; x6c; x6f].

(** The calls a user of a [MemoryClient] object can make, each with the
    answers of the operating system during the call, and the destructor. *)
Module Client.

Inductive call : Type :=
  | Attach (os : posix) (name : string) (access : access_t) (size0 id0 : Z)
  | Destroy (os : posix) (id0 : Z)
  | Read (id0 : Z) (buf : list byte) (size0 : Z)
  | Write (os : posix) (id0 : Z) (buf : list byte) (size0 : Z).

(** The object and the memory after the call.  A call that faults ends the
    process; the state is then kept as it was, which only adds states to
    those the properties are proved of. *)
Definition exec (st : MemoryClient.t * memory) (c : call)
  : MemoryClient.t * memory :=
  let '(self, m) := st in
  match c with
  | Attach os name access size0 id0 =>
      let '(_, _, self', m') :=
        MemoryClient.attach os self m name access size0 id0 in
      (self', m')
  | Destroy os id0 =>
      let '(_, self', m') := MemoryClient.destroy os self m id0 in (self', m')
  | Read _ _ _ => (self, m)
  | Write os id0 buf size0 =>
      match MemoryClient.write os self m id0 buf size0 with
      | Returns (_, m') => (self, m')
      | Faults => (self, m)
      end
  end.

Definition run (st : MemoryClient.t * memory) (calls : list call)
  : MemoryClient.t * memory :=
  fold_left exec calls st.

(** The loop of the destructor, [for (size_t i = _servers.size(); i > 0; i--)
    destroy((_servers.begin())->id)], with [i] iterations left. *)
Fixpoint destructor_loop (os : posix) (i : nat)
         (self : MemoryClient.t) (m : memory) : MemoryClient.t * memory :=
  match i with
  | O => (self, m)
  | S i' =>
      match MemoryClient._servers self with
      | s :: _ =>
          let '(_, self', m') :=
            MemoryClient.destroy os self m (MemoryClient.id s) in
          destructor_loop os i' self' m'
      | [] => (self, m)
      end
  end.

(** The destructor [~MemoryClient]. *)
Definition destructor (os : posix) (self : MemoryClient.t) (m : memory)
  : MemoryClient.t * memory :=
  destructor_loop os (List.length (MemoryClient._servers self)) self m.

End Client.

(** The allocator of a region of [size0] bytes mapped at [addr], after the
    single allocation of the whole region. *)
Definition whole_region (addr size0 : Z) : MemoryManager.t :=
  MemoryManager.mk addr [MemoryManager.mkBlock 0 0 size0] true 1 size0 [].

(** The ids of a pool are in order: the blocks in use carry distinct ids
    below the next id and have a positive size, the vacancies carry the
    sentinel [-1]. *)
Definition ids_in_order (self : MemoryManager.t) : Prop :=
  0 <= MemoryManager._last_index self /\
  Forall (fun i => 0 <= i < MemoryManager._last_index self)
         (map MemoryManager.id (MemoryManager._in_use self)) /\
  NoDup (map MemoryManager.id (MemoryManager._in_use self)) /\
  Forall (fun s => 0 < s) (map MemoryManager.size (MemoryManager._in_use self)) /\
  Forall (fun i => i = -1) (map MemoryManager.id (MemoryManager._vacant self)).

(** The states of an owner: created, with a pool that holds the whole
    mapped region as one block with id 0; or not created, with a pool that
    is new or was initialized by an earlier [create]. *)
Definition owner_consistent (self : RemoteMemory.t) : Prop :=
  (RemoteMemory._is_init self = true /\
   RemoteMemory._manager self =
     whole_region (RemoteMemory._addr self) (RemoteMemory._size self) /\
   RemoteMemory._mem_id self = 0 /\
   RemoteMemory._addr self <> NULL /\ RemoteMemory._size self <> 0) \/
  (RemoteMemory._is_init self = false /\
   (RemoteMemory._manager self = MemoryManager.new \/
    MemoryManager._is_init (RemoteMemory._manager self) = true)).

(** A record of a client is consistent when its pool holds the whole mapped
    region as one block with id 0, which is the id it stores, its name is
    normalized, its mapping is not [NULL] and its size is not 0. *)
Definition record_consistent (s : MemoryClient.Server) : Prop :=
  MemoryClient.manager s =
    whole_region (MemoryClient.addr s) (MemoryClient.size s) /\
  MemoryClient.mem_id s = 0 /\
  real_name (MemoryClient.name s) = MemoryClient.name s /\
  MemoryClient.addr s <> NULL /\ MemoryClient.size s <> 0.

(** The handles of a client are in order: distinct, non-negative and below
    the next handle. *)
Definition handles_in_order (self : MemoryClient.t) : Prop :=
  0 <= MemoryClient._last_id self /\
  Forall (fun i => 0 <= i < MemoryClient._last_id self)
         (map MemoryClient.id (MemoryClient._servers self)) /\
  NoDup (map MemoryClient.id (MemoryClient._servers self)).

(** * Properties *)

Import MemoryManager Pool.

(** ** Lists of blocks *)

Lemma cover_count_app p l1 l2 :
  cover_count p (l1 ++ l2) = (cover_count p l1 + cover_count p l2)%nat.
Proof. induction l1 as [|b l1 IH]; simpl; [reflexivity | rewrite IH; lia]. Qed.

Lemma total_size_app l1 l2 :
  total_size (l1 ++ l2) = total_size l1 + total_size l2.
Proof. induction l1 as [|b l1 IH]; simpl; [reflexivity | rewrite IH; lia]. Qed.

Lemma total_size_nonneg l :
  Forall (fun b => 0 <= size b) l -> 0 <= total_size l.
Proof. induction 1; simpl; lia. Qed.

Lemma within_size_nonneg C l :
  Forall (within C) l -> Forall (fun b => 0 <= size b) l.
Proof. apply Forall_impl. unfold within. intros b Hb. lia. Qed.

Lemma scan_Some {A} (p : A -> bool) l before x after :
  scan p l = Some (before, x, after) ->
  l = before ++ x :: after /\ p x = true /\
  Forall (fun b => p b = false) before.
Proof.
  revert before. induction l as [|b l IH]; simpl; intros before H.
  - discriminate.
  - destruct (p b) eqn:Hp.
    + inversion H; subst. auto.
    + destruct (scan p l) as [[[bf y] af]|] eqn:Hs; [|discriminate].
      inversion H; subst. destruct (IH bf eq_refl) as (-> & Hx & Hbf).
      repeat split; auto.
  Qed.

Lemma scan_None {A} (p : A -> bool) l :
  scan p l = None -> Forall (fun b => p b = false) l.
Proof.
  induction l as [|b l IH]; simpl; intros H; [constructor|].
  destruct (p b) eqn:Hp; [discriminate|].
  destruct (scan p l) as [[[bf y] af]|]; [discriminate|].
  constructor; auto.
Qed.

Lemma scan_first {A} (p : A -> bool) before x after :
  Forall (fun b => p b = false) before -> p x = true ->
  scan p (before ++ x :: after) = Some (before, x, after).
Proof.
  induction 1 as [|b l Hb _ IH]; simpl; intros Hx.
  - now rewrite Hx.
  - now rewrite Hb, IH.
Qed.

(** ** The invariant of the pool *)

Ltac zbool :=
  repeat match goal with
    | |- context [?a <=? ?b] => destruct (Z.leb_spec a b)
    | |- context [?a <? ?b] => destruct (Z.ltb_spec a b)
    | |- context [?a =? ?b] => destruct (Z.eqb_spec a b)
    end; simpl; try reflexivity; try lia; try (exfalso; lia).

Lemma size_t_wrap_small z : is_size_t z -> size_t_wrap z = z.
Proof. unfold is_size_t, size_t_wrap. intros H. now apply Z.mod_small. Qed.

Lemma partition_of_within C l1 b l2 :
  partition_of C (l1 ++ b :: l2) -> within C b.
Proof.
  intros [H _]. apply Forall_app in H as [_ H]. now inversion H.
Qed.

Section Capacity.

Variable C : Z.
Hypothesis C_pos : 0 < C.
Hypothesis C_size_t : is_size_t C.

Lemma init_new_Inv addr :
  addr <> NULL -> init new addr C = (true, mk addr [] true 0 C [mkBlock (-1) 0 C]).
Proof.
  intros Ha. unfold init, new. simpl.
  destruct (Z.eqb_spec addr NULL); [contradiction|].
  destruct (Z.eqb_spec C 0); [lia|]. reflexivity.
Qed.

Lemma fresh_Inv addr : Inv C (mk addr [] true 0 C [mkBlock (-1) 0 C]).
Proof.
  unfold Inv, partition_of, within; simpl. repeat split; try lia.
  - repeat constructor; simpl; lia.
  - intros p Hp. unfold covers; simpl. zbool.
Qed.

Lemma _allocate_Inv self before v after size0 :
  Inv C self -> _vacant self = before ++ v :: after ->
  0 < size0 <= size v ->
  Inv C (snd (_allocate self (before, v, after) size0)).
Proof.
  intros (Hi & Hs & Hp & Ht) Hv Hsz.
  rewrite Hv in Hp, Ht.
  assert (Hw : within C v).
  { rewrite app_assoc in Hp. eapply partition_of_within; eauto. }
  destruct Hw as (Hw1 & Hw2 & Hw3). unfold is_size_t in C_size_t.
  unfold _allocate.
  rewrite (size_t_wrap_small (size v - size0)) by (unfold is_size_t; lia).
  rewrite (size_t_wrap_small (offset v + size0)) by (unfold is_size_t; lia).
  destruct Hp as [Hf Hc].
  rewrite !Forall_app in Hf. destruct Hf as (Hf1 & Hf2 & Hf3).
  inversion Hf3 as [|? ? Hv' Hf4]; subst.
  rewrite !total_size_app in Ht. simpl in Ht.
  destruct (Z.eqb_spec (size v - size0) 0) as [E|E]; unfold Inv; simpl;
    (split; [assumption | split; [congruence | split; [split|]]]).
  - rewrite !Forall_app. repeat split; auto.
    repeat constructor; simpl; lia.
  - intros p Hp. specialize (Hc p Hp).
    rewrite !cover_count_app in *. simpl in *.
    replace (covers p (mkBlock (_last_index self) (offset v) size0))
      with (covers p v); [lia|].
    unfold covers; simpl. replace size0 with (size v) by lia. reflexivity.
  - rewrite !total_size_app. simpl. lia.
  - rewrite !Forall_app. repeat split; auto.
    + repeat constructor; simpl; lia.
    + constructor; auto. unfold within; simpl. lia.
  - intros p Hp. specialize (Hc p Hp).
    rewrite !cover_count_app in *. simpl in *.
    revert Hc. unfold covers; simpl. zbool.
  - rewrite !total_size_app. simpl. lia.
Qed.

Lemma defrag_loop_spec addr l : forall o h l' o' h',
  defrag_loop addr l o h = (l', o', h') ->
  Forall (fun b => 0 <= size b) l -> 0 <= o -> o + total_size l < 2 ^ 64 ->
  o' = o + total_size l /\
  map id l' = map id l /\ map size l' = map size l /\
  contiguous_from o l' /\
  Forall (fun b => o <= offset b /\ 0 <= size b /\
                   offset b + size b <= o') l' /\
  forall p, cover_count p l' = if (o <=? p) && (p <? o') then 1%nat else 0%nat.
Proof.
  induction l as [|b l IH]; simpl; intros o h l' o' h' H Hf Ho Hlt.
  - inversion H; subst. repeat split; auto; try lia.
    intros p. zbool.
  - inversion Hf as [|? ? Hb Hf']; subst.
    pose proof (total_size_nonneg _ Hf') as Hnn.
    rewrite (size_t_wrap_small (o + size b)) in H by (unfold is_size_t; lia).
    destruct (defrag_loop addr l (o + size b) _) as [[r1 o1] h1] eqn:E.
    inversion H; subst.
    destruct (IH _ _ _ _ _ E Hf') as (-> & Hid & Hsz & Hc & Hr & Hcov);
      try lia.
    simpl. repeat split; try lia; try congruence; auto.
    + constructor; simpl; [lia|].
      revert Hr. apply Forall_impl. intros; lia.
    + intros p. rewrite Hcov. unfold covers; simpl. zbool.
Qed.

Lemma total_size_map_size l l' :
  map size l' = map size l -> total_size l' = total_size l.
Proof.
  revert l'. induction l as [|b l IH]; intros [|b' l'] H; simpl in *;
    try discriminate; [reflexivity|].
  inversion H. rewrite (IH l'); congruence.
Qed.

Lemma Inv_in_use_bound self :
  Inv C self ->
  Forall (fun b => 0 <= size b) (_in_use self) /\
  0 <= total_size (_in_use self) <= C.
Proof.
  intros (Hi & Hs & [Hf Hc] & Ht).
  apply Forall_app in Hf as [Hf1 Hf2].
  apply within_size_nonneg in Hf1, Hf2.
  pose proof (total_size_nonneg _ Hf1). pose proof (total_size_nonneg _ Hf2).
  split; [assumption | lia].
Qed.

Lemma defrag_shape self h :
  Inv C self ->
  exists in_use' h',
    defrag self h =
      (mk (_addr self) in_use' true (_last_index self) C
          [mkBlock (-1) (total_size (_in_use self))
                   (C - total_size (_in_use self))], h') /\
    map id in_use' = map id (_in_use self) /\
    map size in_use' = map size (_in_use self) /\
    contiguous_from 0 in_use' /\
    Forall (fun b => 0 <= offset b /\ 0 <= size b /\
                     offset b + size b <= total_size (_in_use self)) in_use' /\
    forall p, cover_count p in_use' =
              if (0 <=? p) && (p <? total_size (_in_use self))
              then 1%nat else 0%nat.
Proof.
  intros HI. destruct (Inv_in_use_bound _ HI) as [Hnn Hb].
  destruct HI as (Hi & Hs & Hp & Ht). unfold is_size_t in C_size_t.
  unfold defrag.
  destruct (defrag_loop _ _ 0 h) as [[l' o'] h'] eqn:E.
  destruct (defrag_loop_spec _ _ _ _ _ _ _ E Hnn) as (-> & H1 & H2 & H3 & H4 & H5);
    try lia.
  simpl in *. exists l', h'. rewrite Hi, Hs.
  rewrite size_t_wrap_small by (unfold is_size_t; lia).
  repeat split; auto.
Qed.

Lemma defrag_Inv self h : Inv C self -> Inv C (fst (defrag self h)).
Proof.
  intros HI. destruct (Inv_in_use_bound _ HI) as [Hnn Hb].
  destruct (defrag_shape self h HI) as (l' & h' & -> & H1 & H2 & H3 & H4 & H5).
  simpl. unfold Inv; simpl. repeat split; auto.
  - apply Forall_app. split.
    + revert H4. apply Forall_impl. unfold within. intros b Hb'. lia.
    + repeat constructor; simpl; lia.
  - intros p Hp. rewrite cover_count_app, H5. simpl.
    unfold covers; simpl. zbool.
  - rewrite (total_size_map_size _ _ H2). lia.
Qed.

Lemma allocate_Inv self h size0 :
  Inv C self -> is_size_t size0 ->
  Inv C (snd (fst (allocate self h size0))).
Proof.
  intros HI Hsz. pose proof HI as (Hi & Hs & Hp & Ht).
  unfold allocate. rewrite Hi. simpl.
  destruct (size0 >? _size self); [exact HI|].
  destruct (Z.eqb_spec size0 0) as [E0|E0]; simpl; [exact HI|].
  destruct (is_empty (_vacant self)); [exact HI|].
  assert (Hpos : 0 < size0) by (unfold is_size_t in Hsz; lia).
  destruct (scan _ (_vacant self)) as [[[before v] after]|] eqn:Es.
  - apply scan_Some in Es as (Hv & Hge & _).
    apply Z.geb_le in Hge.
    pose proof (_allocate_Inv self before v after size0 HI Hv) as H.
    destruct (_allocate self (before, v, after) size0) as [r self'].
    simpl in *. apply H. lia.
  - pose proof (defrag_Inv self h HI) as HI1.
    destruct (defrag self h) as [self1 h1]. simpl in HI1.
    destruct (_vacant self1) as [|v after] eqn:Ev; [exact HI1|].
    destruct (size v >=? size0) eqn:Hge; [|exact HI1].
    apply Z.geb_le in Hge.
    pose proof (_allocate_Inv self1 [] v after size0 HI1 Ev) as H.
    unfold _allocate in H. simpl in H. apply H. lia.
Qed.

Lemma free_Inv self id0 : Inv C self -> Inv C (snd (free self id0)).
Proof.
  intros HI. pose proof HI as (Hi & Hs & [Hf Hc] & Ht).
  unfold free. rewrite Hi. simpl. unfold lookup.
  destruct (scan _ (_in_use self)) as [[[before b] after]|] eqn:Es;
    [|exact HI].
  apply scan_Some in Es as (Hu & _ & _). rewrite Hu in *.
  rewrite !Forall_app in Hf. destruct Hf as ((Hf1 & Hf2) & Hf3).
  inversion Hf2 as [|? ? Hb Hf4]; subst.
  rewrite !total_size_app in Ht. simpl in Ht.
  unfold Inv; simpl. split; [reflexivity|]. split; [reflexivity|].
  split; [split|].
  - rewrite !Forall_app. repeat split; auto.
  - intros p Hp. specialize (Hc p Hp).
    rewrite !cover_count_app in *. simpl in *.
    change (covers p (mkBlock (-1) (offset b) (size b))) with (covers p b).
    lia.
  - rewrite !total_size_app. simpl. lia.
Qed.

Lemma init_Inv self addr size0 : Inv C self -> Inv C (snd (init self addr size0)).
Proof.
  intros HI. pose proof HI as (Hi & _). unfold init. now rewrite Hi.
Qed.

Lemma exec_Inv st c : call_ok c -> Inv C (fst st) -> Inv C (fst (exec st c)).
Proof.
  destruct st as [self h]. simpl. intros Hok HI.
  destruct c; simpl in *.
  - now apply init_Inv.
  - pose proof (allocate_Inv self h size0 HI Hok) as H.
    destruct (allocate self h size0) as [[r self'] h']. exact H.
  - now apply free_Inv.
  - now apply defrag_Inv.
  - exact HI.
  - exact HI.
Qed.

Lemma run_Inv calls : forall st,
  Forall call_ok calls -> Inv C (fst st) -> Inv C (fst (run st calls)).
Proof.
  induction calls as [|c calls IH]; simpl; intros st Hok HI; [exact HI|].
  inversion Hok; subst. apply IH; [assumption|]. now apply exec_Inv.
Qed.

End Capacity.

Lemma init_new_inv C addr self0 :
  is_size_t C -> init new addr C = (true, self0) ->
  0 < C /\ addr <> NULL /\ self0 = mk addr [] true 0 C [mkBlock (-1) 0 C].
Proof.
  unfold init, new, is_size_t. simpl. intros HC H.
  destruct (Z.eqb_spec addr NULL); simpl in H; [discriminate|].
  destruct (Z.eqb_spec C 0); simpl in H; [discriminate|].
  inversion H. repeat split; auto; lia.
Qed.

Lemma reachable_Inv C self h :
  is_size_t C -> reachable C self h -> 0 < C /\ Inv C self.
Proof.
  intros HC (addr & self0 & h0 & calls & Hinit & Hok & Hrun).
  destruct (init_new_inv _ _ _ HC Hinit) as (Hpos & Ha & ->).
  split; [assumption|].
  replace self with (fst (run (mk addr [] true 0 C [mkBlock (-1) 0 C], h0) calls))
    by now rewrite Hrun.
  apply run_Inv; auto. simpl. now apply fresh_Inv.
Qed.

(** ** C1: the blocks partition the buffer *)

(** C1.  After a successful [init] of a new allocator with capacity [C], and
    after any further sequence of [init], [allocate], [free], [defrag],
    [read] and [write] calls, the blocks of [_in_use] and [_vacant] partition
    the byte range [0, C): no block leaves the range and every byte of it
    lies in exactly one block; and the sizes of the blocks in use and of the
    vacant blocks add up to [C]. *)
Theorem pool_partition_invariant :
  forall (C addr : Z) (h : heap) (calls : list call) (self0 : t),
    is_size_t C ->
    init new addr C = (true, self0) ->
    Forall call_ok calls ->
    let self := fst (run (self0, h) calls) in
    partition_of C (_in_use self ++ _vacant self) /\
    total_size (_in_use self) + total_size (_vacant self) = C.
Proof.
  intros C addr h calls self0 HC Hinit Hok self.
  assert (Hpos : 0 < C /\ addr <> NULL).
  { unfold init, new in Hinit. simpl in Hinit. unfold is_size_t in HC.
    destruct (Z.eqb_spec addr NULL); simpl in Hinit; [discriminate|].
    destruct (Z.eqb_spec C 0); simpl in Hinit; [discriminate|]. lia. }
  destruct Hpos as [Hpos Ha].
  rewrite (init_new_Inv C Hpos addr Ha) in Hinit. inversion Hinit; subst self0.
  assert (HI : Inv C self).
  { apply run_Inv; auto. simpl. now apply fresh_Inv. }
  destruct HI as (_ & _ & Hp & Ht). split; assumption.
Qed.

Lemma pool_partition_invariant_witness :
  let self :=
    fst (run (fresh10, zero_heap)
             [Allocate 4; Allocate 6; Free 0; Allocate 3; Allocate 2; Defrag;
              Write 2 [x68; x69] 2; Init 4096 10; Free 1; Allocate 7]) in
  partition_of 10 (_in_use self ++ _vacant self) /\
  total_size (_in_use self) + total_size (_vacant self) = 10.
Proof.
  apply (pool_partition_invariant 10 4096 zero_heap).
  - unfold is_size_t. lia.
  - reflexivity.
  - repeat constructor; unfold is_size_t; simpl; lia.
Defined.

(** ** C3, C4, C8: first fit, and the allocations of a fresh pool *)

Lemma _allocate_shape C self before v after size0 :
  is_size_t C -> within C v -> 0 < size0 <= size v ->
  _allocate self (before, v, after) size0 =
    (_last_index self,
     mk (_addr self)
        (_in_use self ++ [mkBlock (_last_index self) (offset v) size0])
        (_is_init self) (int_wrap (_last_index self + 1)) (_size self)
        (before ++ remainder v size0 ++ after)).
Proof.
  unfold is_size_t, within. intros HC Hw Hsz. unfold _allocate.
  rewrite (size_t_wrap_small (size v - size0)) by (unfold is_size_t; lia).
  rewrite (size_t_wrap_small (offset v + size0)) by (unfold is_size_t; lia).
  unfold remainder.
  destruct (Z.eqb_spec (size v - size0) 0), (Z.ltb_spec size0 (size v));
    try lia; reflexivity.
Qed.

Lemma scan_size_none size0 l :
  Forall (fun b => size b < size0) l ->
  Forall (fun b => (size b >=? size0) = false) l.
Proof.
  apply Forall_impl. intros b Hb. rewrite Z.geb_leb. now apply Z.leb_gt.
Qed.

Section FirstFit.

Variable C : Z.
Hypothesis C_pos : 0 < C.
Hypothesis C_size_t : is_size_t C.

Variable self : t.
Variable h : heap.
Variable size0 : Z.
Hypothesis self_Inv : Inv C self.
Hypothesis size0_range : 0 < size0 <= C.

Lemma allocate_guards_pass :
  allocate self h size0 =
    if is_empty (_vacant self) then (-1, self, h)
    else
      match scan (fun b => size b >=? size0) (_vacant self) with
      | Some iter =>
          let '(r, self') := _allocate self iter size0 in (r, self', h)
      | None =>
          let '(self1, h1) := defrag self h in
          match _vacant self1 with
          | v :: after =>
              if size v >=? size0
              then let '(r, self') := _allocate self1 ([], v, after) size0 in
                   (r, self', h1)
              else (-1, self1, h1)
          | [] => (-1, self1, h1)
          end
      end.
Proof.
  destruct self_Inv as (Hi & Hs & _). unfold allocate. rewrite Hi, Hs. simpl.
  destruct (Z.gtb_spec size0 C); [lia|].
  destruct (Z.eqb_spec size0 0); [lia|]. reflexivity.
Qed.

Lemma allocate_first_fit before v after :
  _vacant self = before ++ v :: after ->
  Forall (fun b => size b < size0) before ->
  size0 <= size v ->
  allocate self h size0 =
    (_last_index self,
     mk (_addr self)
        (_in_use self ++ [mkBlock (_last_index self) (offset v) size0])
        true (int_wrap (_last_index self + 1)) C
        (before ++ remainder v size0 ++ after),
     h).
Proof.
  intros Hv Hb Hge. rewrite allocate_guards_pass, Hv.
  replace (is_empty (before ++ v :: after)) with false
    by (now destruct before).
  rewrite scan_first.
  - destruct self_Inv as (Hi & Hs & Hp & _). rewrite Hv in Hp.
    rewrite app_assoc in Hp. apply partition_of_within in Hp.
    rewrite (_allocate_shape C) by (auto; lia). now rewrite Hi, Hs.
  - now apply scan_size_none.
  - rewrite Z.geb_leb. now apply Z.leb_le.
Qed.

Lemma allocate_second_attempt :
  _vacant self <> [] ->
  Forall (fun b => size b < size0) (_vacant self) ->
  allocate self h size0 = defrag_then_retry self h size0.
Proof.
  intros Hne Hall. rewrite allocate_guards_pass.
  destruct (_vacant self) as [|v0 l0] eqn:Ev; [contradiction|]. simpl is_empty.
  cbv iota. unfold defrag_then_retry.
  assert (Hs : scan (fun b => size b >=? size0) (v0 :: l0) = None).
  { apply scan_size_none in Hall. revert Hall. generalize (v0 :: l0).
    induction 1 as [|b l Hb _ IH]; simpl; [reflexivity|].
    now rewrite Hb, IH. }
  rewrite Hs.
  destruct (defrag_shape C C_size_t self h self_Inv)
    as (l' & h' & -> & _). cbn [_vacant scan size].
  destruct (_ >=? size0); reflexivity.
Qed.

Lemma defrag_then_retry_shape :
  let used := total_size (_in_use self) in
  let '(self1, h1) := defrag self h in
  defrag_then_retry self h size0 =
    if size0 <=? C - used
    then (_last_index self,
          mk (_addr self)
             (_in_use self1 ++ [mkBlock (_last_index self) used size0])
             true (int_wrap (_last_index self + 1)) C
             (remainder (mkBlock (-1) used (C - used)) size0),
          h1)
    else (-1, self1, h1).
Proof.
  intros used. unfold defrag_then_retry.
  destruct (Inv_in_use_bound C self self_Inv) as [_ Hb].
  destruct (defrag_shape C C_size_t self h self_Inv)
    as (l' & h' & -> & _). simpl. fold used. fold used in Hb.
  rewrite Z.geb_leb.
  destruct (Z.leb_spec size0 (C - used)); [|reflexivity].
  rewrite (_allocate_shape C); simpl; auto; unfold within; simpl; try lia.
  now rewrite app_nil_r.
Qed.

Lemma allocate_no_vacancy :
  _vacant self = [] -> allocate self h size0 = (-1, self, h).
Proof. intros Hv. now rewrite allocate_guards_pass, Hv. Qed.

End FirstFit.

(** C3 (amended).  In an initialized allocator of capacity [C], for a request
    [0 < size0 <= C]:
    - first fit: the first vacancy [v] of the list whose size is at least
      [size0] is split; a block of exactly [size0] bytes with the next id is
      appended to the blocks in use at the offset of [v], the next id is
      incremented, and [v] is replaced by its remainder, or removed when the
      remainder is zero;
    - when the vacant list is not empty and no vacancy fits, the pool is
      defragmented once and the request retried against the single vacancy
      this leaves; it fails with [-1], in the defragmented state, when that
      vacancy is too small;
    - when the vacant list is empty the request fails with [-1] at once: the
      pool is not defragmented and nothing changes. *)
Theorem allocate_first_fit_or_one_defrag :
  forall (C : Z) (self : t) (h : heap) (size0 : Z),
    is_size_t C -> reachable C self h -> 0 < size0 <= C ->
    (forall before v after,
        _vacant self = before ++ v :: after ->
        Forall (fun b => size b < size0) before ->
        size0 <= size v ->
        allocate self h size0 =
          (_last_index self,
           mk (_addr self)
              (_in_use self ++ [mkBlock (_last_index self) (offset v) size0])
              true (int_wrap (_last_index self + 1)) C
              (before ++ remainder v size0 ++ after),
           h)) /\
    (_vacant self <> [] ->
     Forall (fun b => size b < size0) (_vacant self) ->
     allocate self h size0 = defrag_then_retry self h size0 /\
     let used := total_size (_in_use self) in
     let '(self1, h1) := defrag self h in
     defrag_then_retry self h size0 =
       if size0 <=? C - used
       then (_last_index self,
             mk (_addr self)
                (_in_use self1 ++ [mkBlock (_last_index self) used size0])
                true (int_wrap (_last_index self + 1)) C
                (remainder (mkBlock (-1) used (C - used)) size0),
             h1)
       else (-1, self1, h1)) /\
    (_vacant self = [] -> allocate self h size0 = (-1, self, h)).
Proof.
  intros C self h size0 HC Hr Hsz.
  destruct (reachable_Inv _ _ _ HC Hr) as [Hpos HI].
  split; [|split].
  - intros before v after. now apply allocate_first_fit.
  - intros Hne Hall. split.
    + now apply (allocate_second_attempt C).
    + now apply defrag_then_retry_shape.
  - now apply (allocate_no_vacancy C).
Qed.

Lemma full10_reachable : reachable 10 full10 zero_heap.
Proof.
  exists 4096, fresh10, zero_heap,
    [Allocate 4; Allocate 6; Free 0; Allocate 4].
  split; [reflexivity|]. split.
  - repeat constructor; unfold is_size_t; simpl; lia.
  - reflexivity.
Defined.

Lemma frag10_reachable : reachable 10 frag10 zero_heap.
Proof.
  exists 4096, fresh10, zero_heap, [Allocate 4; Allocate 3; Free 0].
  split; [reflexivity|]. split.
  - repeat constructor; unfold is_size_t; simpl; lia.
  - reflexivity.
Defined.

Lemma allocate_first_fit_or_one_defrag_witness :
  allocate frag10 zero_heap 4 =
    (2, mk 4096 [mkBlock 1 4 3; mkBlock 2 0 4] true 3 10 [mkBlock (-1) 7 3],
     zero_heap) /\
  allocate frag10 zero_heap 5 = defrag_then_retry frag10 zero_heap 5 /\
  allocate full10 zero_heap 1 = (-1, full10, zero_heap).
Proof.
  assert (H10 : is_size_t 10) by (unfold is_size_t; lia).
  split; [|split].
  - refine (proj1 (allocate_first_fit_or_one_defrag
                     10 frag10 zero_heap 4 H10 frag10_reachable _)
                  [mkBlock (-1) 7 3] (mkBlock (-1) 0 4) [] _ _ _).
    + lia.
    + reflexivity.
    + repeat constructor; simpl; lia.
    + simpl; lia.
  - refine (proj1 (proj1 (proj2 (allocate_first_fit_or_one_defrag
                     10 frag10 zero_heap 5 H10 frag10_reachable _)) _ _)).
    + lia.
    + discriminate.
    + repeat constructor; simpl; lia.
  - refine (proj2 (proj2 (allocate_first_fit_or_one_defrag
                            10 full10 zero_heap 1 H10 full10_reachable _)) _).
    + lia.
    + reflexivity.
Defined.

(** C3 as stated fails: in a reachable pool without any vacancy, no vacancy
    matches the request, yet [allocate] does not defragment. *)
Lemma allocate_defrag_counterexample :
  ~ (forall (C : Z) (self : t) (h : heap) (size0 : Z),
        is_size_t C -> reachable C self h -> 0 < size0 <= C ->
        Forall (fun b => size b < size0) (_vacant self) ->
        allocate self h size0 = defrag_then_retry self h size0).
Proof.
  intros H.
  assert (E : allocate full10 zero_heap 1 = defrag_then_retry full10 zero_heap 1).
  { apply (H 10).
    - unfold is_size_t. lia.
    - exact full10_reachable.
    - lia.
    - constructor. }
  apply (f_equal (fun r => _vacant (snd (fst r)))) in E.
  vm_compute in E. discriminate E.
Qed.

(** C4.  On a freshly initialized pool of capacity [C > 0] (one vacancy that
    spans the capacity, no block in use), [allocate(C)] succeeds: it returns
    id [0], not [-1], and leaves the single block in use at offset [0] with
    size [C]; the memory is untouched. *)
Theorem fresh_pool_full_allocation :
  forall (C addr : Z) (h : heap),
    0 < C -> is_size_t C -> addr <> NULL ->
    exists self0,
      init new addr C = (true, self0) /\
      _in_use self0 = [] /\
      _vacant self0 = [mkBlock (-1) 0 C] /\
      allocate self0 h C = (0, mk addr [mkBlock 0 0 C] true 1 C [], h) /\
      fst (fst (allocate self0 h C)) <> -1.
Proof.
  intros C addr h Hpos HC Ha.
  exists (mk addr [] true 0 C [mkBlock (-1) 0 C]).
  split; [now apply init_new_Inv|]. split; [reflexivity|].
  split; [reflexivity|].
  assert (E : allocate (mk addr [] true 0 C [mkBlock (-1) 0 C]) h C =
              (0, mk addr [mkBlock 0 0 C] true 1 C [], h)).
  { rewrite (allocate_first_fit C HC _ h C (fresh_Inv C Hpos addr))
      with (before := []) (v := mkBlock (-1) 0 C) (after := []);
      simpl; auto; try lia.
    unfold remainder; simpl. now rewrite Z.ltb_irrefl. }
  split; [exact E|]. rewrite E. simpl. lia.
Qed.

Lemma fresh_pool_full_allocation_witness :
  exists self0,
    init new 4096 10 = (true, self0) /\
    _in_use self0 = [] /\
    _vacant self0 = [mkBlock (-1) 0 10] /\
    allocate self0 zero_heap 10 =
      (0, mk 4096 [mkBlock 0 0 10] true 1 10 [], zero_heap) /\
    fst (fst (allocate self0 zero_heap 10)) <> -1.
Proof.
  apply (fresh_pool_full_allocation 10 4096 zero_heap).
  - lia.
  - unfold is_size_t. lia.
  - unfold NULL. lia.
Defined.

(** C8.  On a freshly initialized pool of capacity [C], for [0 < S <= C]:
    [allocate(S)] returns id [0]; [free(0)] succeeds and leaves no block in
    use and vacancies that add up to [C]; defragmenting that state gives the
    single vacancy [0, C) of a fresh pool; and a subsequent [allocate(C)]
    succeeds, with id [1] and the block at offset [0]. *)
Theorem allocate_then_free_restores_pool :
  forall (C S addr : Z) (h : heap) (self0 : t),
    is_size_t C -> 0 < S <= C ->
    init new addr C = (true, self0) ->
    exists self1 self2,
      allocate self0 h S = (0, self1, h) /\
      free self1 0 = (true, self2) /\
      _in_use self2 = [] /\
      total_size (_vacant self2) = C /\
      defrag self2 h = (mk addr [] true 1 C [mkBlock (-1) 0 C], h) /\
      allocate self2 h C = (1, mk addr [mkBlock 1 0 C] true 2 C [], h).
Proof.
  intros C S addr h self0 HC HS Hinit.
  destruct (init_new_inv _ _ _ HC Hinit) as (Hpos & Ha & ->).
  pose proof (fresh_Inv C Hpos addr) as HI0.
  assert (HSt : is_size_t S) by (unfold is_size_t in *; lia).
  pose proof (allocate_first_fit C HC _ h S HI0 HS
                [] (mkBlock (-1) 0 C) [] eq_refl (Forall_nil _) (proj2 HS)) as E1.
  pose proof (allocate_Inv C Hpos HC _ h S HI0 HSt) as HI1.
  rewrite E1 in HI1. simpl in E1, HI1.
  change (int_wrap 1) with 1 in E1, HI1. rewrite app_nil_r in E1, HI1.
  eexists. eexists. split; [exact E1|].
  pose proof (free_Inv C Hpos HC _ 0 HI1) as HI2.
  unfold free, lookup in *. simpl in *.
  split; [reflexivity|]. split; [reflexivity|].
  assert (Hw : size_t_wrap (C - 0) = C)
    by (rewrite Z.sub_0_r; now apply size_t_wrap_small).
  assert (Hd : forall vacant,
             defrag (mk addr [] true 1 C vacant) h =
               (mk addr [] true 1 C [mkBlock (-1) 0 C], h)).
  { intros vacant. unfold defrag. simpl. now rewrite Hw. }
  split; [|split].
  - simpl. rewrite total_size_app. unfold remainder. simpl.
    destruct (Z.ltb_spec S C); simpl; lia.
  - apply Hd.
  - unfold remainder in *. simpl in *.
    destruct (Z.ltb_spec S C) as [Hlt|Hge].
    + rewrite (allocate_second_attempt C HC _ h C HI2); simpl; try lia.
      * pose proof (defrag_then_retry_shape C HC _ h C HI2) as E3.
        cbv zeta in E3. rewrite Hd in E3. simpl in E3. rewrite E3.
        rewrite Z.sub_0_r, Z.leb_refl. unfold remainder. simpl.
        rewrite Z.ltb_irrefl. reflexivity. lia.
      * discriminate.
      * repeat constructor; simpl; lia.
    + assert (S = C) by lia. subst S.
      rewrite (allocate_first_fit C HC _ h C HI2)
        with (before := []) (v := mkBlock (-1) 0 C) (after := []);
        simpl; auto; try lia.
      unfold remainder. simpl. rewrite Z.ltb_irrefl. reflexivity.
Qed.

Lemma allocate_then_free_restores_pool_witness :
  exists self1 self2,
    allocate fresh10 zero_heap 4 = (0, self1, zero_heap) /\
    free self1 0 = (true, self2) /\
    _in_use self2 = [] /\
    total_size (_vacant self2) = 10 /\
    defrag self2 zero_heap =
      (mk 4096 [] true 1 10 [mkBlock (-1) 0 10], zero_heap) /\
    allocate self2 zero_heap 10 =
      (1, mk 4096 [mkBlock 1 0 10] true 2 10 [], zero_heap).
Proof.
  apply (allocate_then_free_restores_pool 10 4 4096 zero_heap fresh10).
  - unfold is_size_t. lia.
  - lia.
  - reflexivity.
Defined.

(** ** C6: defragmentation *)

Lemma defrag_loop_relocate addr l : forall o h placed,
  Forall (fun b => 0 <= size b) l -> 0 <= o -> o + total_size l < 2 ^ 64 ->
  fold_left (relocate addr) l (placed, o, h) =
    let '(l', o', h') := defrag_loop addr l o h in (placed ++ l', o', h').
Proof.
  induction l as [|b l IH]; simpl; intros o h placed Hf Ho Hlt.
  - now rewrite app_nil_r.
  - inversion Hf as [|? ? Hb Hf']; subst.
    pose proof (total_size_nonneg _ Hf') as Hnn.
    rewrite (size_t_wrap_small (o + size b)) by (unfold is_size_t; lia).
    rewrite IH by (auto; lia).
    replace (if negb (o =? offset b)
             then memcpy h (addr + o) (addr + offset b) (size b) else h)
      with (if o =? offset b then h
            else memcpy h (addr + o) (addr + offset b) (size b))
      by (now destruct (o =? offset b)).
    destruct (defrag_loop addr l (o + size b) _) as [[l' o'] h'].
    now rewrite <- app_assoc.
Qed.

Lemma defrag_loop_frame addr l : forall o h l' o' h',
  defrag_loop addr l o h = (l', o', h') ->
  Forall (fun b => 0 <= size b) l -> 0 <= o -> o + total_size l < 2 ^ 64 ->
  forall a, a < addr + o \/ addr + o + total_size l <= a -> h' a = h a.
Proof.
  induction l as [|b l IH]; simpl; intros o h l' o' h' H Hf Ho Hlt a Ha.
  - now inversion H.
  - inversion Hf as [|? ? Hb Hf']; subst.
    pose proof (total_size_nonneg _ Hf') as Hnn.
    rewrite (size_t_wrap_small (o + size b)) in H by (unfold is_size_t; lia).
    destruct (defrag_loop addr l (o + size b) _) as [[r1 o1] h1] eqn:E.
    inversion H; subst.
    rewrite (IH _ _ _ _ _ E) by (auto; lia).
    destruct (o =? offset b); simpl; [reflexivity|].
    unfold memcpy. zbool.
Qed.

(** C6.  In an initialized allocator of capacity [C], after [defrag]:
    the vacant list is exactly one block, at the cursor [used] (the sum of
    the sizes of the blocks in use) and of size [C - used], so that it covers
    [used, C); the blocks in use keep their order, their ids and their sizes;
    their offsets follow each other from [0] on; the other members of the
    allocator are unchanged; the pass is the walk of the specification, which
    copies every block that is not already at the cursor; and no byte outside
    the compacted range [0, used) of the buffer is written. *)
Theorem defrag_compacts_pool :
  forall (C : Z) (self : t) (h : heap),
    is_size_t C -> reachable C self h ->
    let used := total_size (_in_use self) in
    let '(self', h') := defrag self h in
    _vacant self' = [mkBlock (-1) used (C - used)] /\
    0 <= used <= C /\
    (forall p, covers p (mkBlock (-1) used (C - used)) = true <-> used <= p < C) /\
    map id (_in_use self') = map id (_in_use self) /\
    map size (_in_use self') = map size (_in_use self) /\
    contiguous_from 0 (_in_use self') /\
    (_addr self', _is_init self', _last_index self', _size self') =
      (_addr self, _is_init self, _last_index self, _size self) /\
    defrag self h = defrag_spec self h /\
    forall a, a < _addr self \/ _addr self + used <= a -> h' a = h a.
Proof.
  intros C self h HC Hr used.
  destruct (reachable_Inv _ _ _ HC Hr) as [Hpos HI].
  destruct (Inv_in_use_bound C self HI) as [Hnn Hb]. fold used in Hb.
  pose proof HI as (Hi & Hs & _).
  assert (Hlt : 0 + total_size (_in_use self) < 2 ^ 64)
    by (unfold is_size_t in HC; fold used; lia).
  destruct (defrag_shape C HC self h HI)
    as (l' & h' & E & H1 & H2 & H3 & _). fold used in E.
  pose proof (defrag_loop_relocate (_addr self) (_in_use self) 0 h []
                Hnn (Z.le_refl 0) Hlt) as Hspec.
  assert (Espec : defrag self h = defrag_spec self h).
  { unfold defrag_spec. rewrite Hspec. unfold defrag.
    destruct (defrag_loop _ _ 0 h) as [[l1 o1] h1] eqn:El. simpl.
    destruct (defrag_loop_spec _ _ _ _ _ _ _ El Hnn (Z.le_refl 0) Hlt)
      as (-> & _).
    rewrite size_t_wrap_small; [reflexivity|].
    unfold is_size_t in *. fold used. lia. }
  assert (Hfr : forall a, a < _addr self \/ _addr self + used <= a ->
                          snd (defrag self h) a = h a).
  { intros a Ha. unfold defrag.
    destruct (defrag_loop _ _ 0 h) as [[l1 o1] h1] eqn:El. simpl.
    apply (defrag_loop_frame _ _ _ _ _ _ _ El Hnn (Z.le_refl 0) Hlt).
    fold used. lia. }
  rewrite <- Espec. rewrite E in *. simpl in *.
  repeat split; auto; try lia; try congruence.
  - unfold covers in H; simpl in H. revert H. zbool.
  - unfold covers in H; simpl in H. revert H. zbool.
  - intros [Hp1 Hp2]. unfold covers; simpl. zbool.
Qed.

Lemma defrag_compacts_pool_witness :
  _vacant (fst (defrag frag10 zero_heap)) = [mkBlock (-1) 3 7] /\
  map id (_in_use (fst (defrag frag10 zero_heap))) = [1] /\
  map size (_in_use (fst (defrag frag10 zero_heap))) = [3].
Proof.
  assert (H10 : is_size_t 10) by (unfold is_size_t; lia).
  pose proof (defrag_compacts_pool 10 frag10 zero_heap H10 frag10_reachable)
    as H.
  cbv zeta in H. destruct (defrag frag10 zero_heap) as [self' h'].
  destruct H as (Hv & _ & _ & Hid & Hsz & _). simpl.
  rewrite Hv, Hid, Hsz. repeat split; reflexivity.
Defined.

(** ** C5, C7: reading and writing a block *)

Lemma load_bytes_length h src n : List.length (load_bytes h src n) = Z.to_nat n.
Proof. unfold load_bytes. now rewrite length_map, length_seq. Qed.

Lemma firstn_map_nth (d : byte) : forall (n : nat) (buf : list byte),
  (n <= List.length buf)%nat ->
  map (fun i => nth i buf d) (seq 0 n) = firstn n buf.
Proof.
  induction n as [|n IH]; intros buf Hn; [reflexivity|].
  destruct buf as [|x buf]; simpl in Hn; [lia|].
  simpl. f_equal. rewrite <- seq_shift, map_map. apply IH. lia.
Qed.

Lemma load_bytes_memcpy_from h a buf n :
  0 <= n <= Z.of_nat (List.length buf) ->
  load_bytes (memcpy_from h a buf n) a n = firstn (Z.to_nat n) buf.
Proof.
  intros Hn. unfold load_bytes.
  rewrite <- (firstn_map_nth x00) by lia.
  apply map_ext_in. intros i Hi. apply in_seq in Hi.
  unfold memcpy_from.
  replace (a + Z.of_nat i - a) with (Z.of_nat i) by lia.
  rewrite Nat2Z.id. zbool.
Qed.

(** The block [read] and [write] act upon: the first block in use with the
    given id. *)
Lemma read_write_cases self h id0 buf nbytes :
  (_is_init self = false /\
   read self h id0 buf nbytes = (false, buf) /\
   write self h id0 buf nbytes = (false, h)) \/
  (_is_init self = true /\ lookup self id0 = None /\
   read self h id0 buf nbytes = (false, buf) /\
   write self h id0 buf nbytes = (false, h)) \/
  (exists before b after,
      _is_init self = true /\ lookup self id0 = Some (before, b, after) /\
      size b < nbytes /\
      read self h id0 buf nbytes = (false, buf) /\
      write self h id0 buf nbytes = (false, h)) \/
  (exists before b after,
      _is_init self = true /\ lookup self id0 = Some (before, b, after) /\
      nbytes <= size b /\
      read self h id0 buf nbytes =
        (true, memcpy_to buf h (_addr self + offset b) nbytes) /\
      write self h id0 buf nbytes =
        (true, memcpy_from h (_addr self + offset b) buf nbytes)).
Proof.
  unfold read, write.
  destruct (_is_init self); simpl; [|left; auto].
  destruct (lookup self id0) as [[[before b] after]|]; [|right; left; auto].
  destruct (Z.ltb_spec (size b) nbytes).
  - right; right; left. exists before, b, after. auto.
  - right; right; right. exists before, b, after. auto.
Qed.

(** C5.  When [write(id, bytes, n)] succeeds, with [bytes] a buffer of at
    least [n] bytes, a following [read(id, buffer, n)] succeeds and the first
    [n] bytes of the buffer are the [n] bytes written (the rest of the buffer
    is as it was).  This holds for every id on which the write succeeds, so
    for every id obtained from [allocate] and every [n] up to the size of its
    block. *)
Theorem write_then_read_round_trip :
  forall (self : t) (h h' : heap) (id0 : Z) (bytes buffer : list byte) (n : Z),
    0 <= n <= Z.of_nat (List.length bytes) ->
    write self h id0 bytes n = (true, h') ->
    read self h' id0 buffer n =
      (true, firstn (Z.to_nat n) bytes ++ skipn (Z.to_nat n) buffer).
Proof.
  intros self h h' id0 bytes buffer n Hn Hw.
  destruct (read_write_cases self h id0 bytes n)
    as [(_ & _ & E) | [(_ & _ & _ & E) | [(? & ? & ? & _ & _ & _ & _ & E)
        | (before & b & after & Hi & Hl & Hsz & _ & E)]]];
    rewrite E in Hw; try discriminate.
  inversion Hw; subst h'. clear Hw E.
  unfold read. rewrite Hi, Hl. simpl.
  destruct (Z.ltb_spec (size b) n); [lia|].
  unfold memcpy_to. now rewrite load_bytes_memcpy_from.
Qed.

Lemma write_then_read_round_trip_witness :
  let self := snd (fst (allocate fresh10 zero_heap 4)) in
  let bytes := [x68; x65; x6c; x6c; x6f] in
  read self (snd (write self zero_heap 0 bytes 4)) 0 [x00; x00; x00; x00; x00] 4
  = (true, [x68; x65; x6c; x6c; x00]).
Proof.
  intros self bytes.
  refine (write_then_read_round_trip
            self zero_heap _ 0 bytes [x00; x00; x00; x00; x00] 4 _ _).
  - simpl. lia.
  - reflexivity.
Defined.

Lemma lookup_first_in_use self id0 b :
  (exists before after, lookup self id0 = Some (before, b, after)) <->
  first_in_use self id0 b.
Proof.
  unfold lookup, first_in_use. split.
  - intros (before & after & H). apply scan_Some in H as (Hu & Hb & Hbefore).
    exists before, after. split; [exact Hu|]. split; [now apply Z.eqb_eq|].
    revert Hbefore. apply Forall_impl. intros x Hx. now apply Z.eqb_neq.
  - intros (before & after & Hu & Hb & Hbefore).
    exists before, after. rewrite Hu. apply scan_first.
    + revert Hbefore. apply Forall_impl. intros x Hx. now apply Z.eqb_neq.
    + now apply Z.eqb_eq.
Qed.

Lemma lookup_no_block self id0 :
  lookup self id0 = None <-> (forall b, In b (_in_use self) -> id b <> id0).
Proof.
  unfold lookup. split.
  - intros H b Hb. apply scan_None in H. rewrite Forall_forall in H.
    apply Z.eqb_neq. now apply H.
  - intros H. destruct (scan _ (_in_use self)) as [[[before b] after]|] eqn:Es;
      [|reflexivity].
    apply scan_Some in Es as (Hu & Hb & _). apply Z.eqb_eq in Hb.
    exfalso. apply (H b); [|exact Hb].
    rewrite Hu. apply in_or_app. right. left. reflexivity.
Qed.

Lemma first_in_use_unique self id0 b b' :
  first_in_use self id0 b -> first_in_use self id0 b' -> b = b'.
Proof.
  intros H H'. apply lookup_first_in_use in H as (bf & af & E).
  apply lookup_first_in_use in H' as (bf' & af' & E'). congruence.
Qed.

(** C7.  [read] and [write] return [false] exactly when the allocator is not
    initialized, or no block of [_in_use] has the id, or [nbytes] exceeds the
    size recorded for the block, which is the first block of [_in_use] that
    has the id.  When they fail nothing is copied: the caller buffer of
    [read] and the memory of [write] are as before.  When they succeed
    exactly [nbytes] bytes are copied: [read] replaces the first [nbytes]
    bytes of the buffer by the bytes at the block's address, and [write]
    stores the first [nbytes] bytes of the buffer at the block's address and
    changes no other byte of the memory. *)
Theorem read_write_fail_exactly_when :
  forall (self : t) (h : heap) (id0 : Z) (buf : list byte) (nbytes : Z),
    let failing :=
      _is_init self = false \/
      (forall b, In b (_in_use self) -> id b <> id0) \/
      (exists b, first_in_use self id0 b /\ size b < nbytes) in
    (fst (read self h id0 buf nbytes) = false <-> failing) /\
    (fst (write self h id0 buf nbytes) = false <-> failing) /\
    (failing ->
     read self h id0 buf nbytes = (false, buf) /\
     write self h id0 buf nbytes = (false, h)) /\
    (~ failing ->
     exists b h',
       first_in_use self id0 b /\ nbytes <= size b /\
       let a := _addr self + offset b in
       read self h id0 buf nbytes =
         (true, load_bytes h a nbytes ++ skipn (Z.to_nat nbytes) buf) /\
       List.length (load_bytes h a nbytes) = Z.to_nat nbytes /\
       write self h id0 buf nbytes = (true, h') /\
       (forall i, 0 <= i < nbytes -> h' (a + i) = nth (Z.to_nat i) buf x00) /\
       (forall x, x < a \/ a + nbytes <= x -> h' x = h x)).
Proof.
  intros self h id0 buf nbytes failing.
  assert (Hcases :
            (failing /\
             read self h id0 buf nbytes = (false, buf) /\
             write self h id0 buf nbytes = (false, h)) \/
            (~ failing /\
             exists b,
               first_in_use self id0 b /\ nbytes <= size b /\
               read self h id0 buf nbytes =
                 (true, memcpy_to buf h (_addr self + offset b) nbytes) /\
               write self h id0 buf nbytes =
                 (true, memcpy_from h (_addr self + offset b) buf nbytes))).
  { destruct (read_write_cases self h id0 buf nbytes)
      as [(Hi & Er & Ew) | [(_ & Hl & Er & Ew)
          | [(bf & b & af & _ & Hl & Hlt & Er & Ew)
          | (bf & b & af & Hi & Hl & Hsz & Er & Ew)]]].
    - left. split; [left; exact Hi | auto].
    - left. split; [right; left; now apply lookup_no_block | auto].
    - left. split; [|auto]. right. right. exists b.
      split; [apply lookup_first_in_use; eauto | exact Hlt].
    - right. assert (Hb : first_in_use self id0 b)
        by (apply lookup_first_in_use; eauto).
      split; [|exists b; auto].
      intros [Hf | [Hf | (b' & Hb' & Hlt)]].
      + congruence.
      + apply lookup_no_block in Hf. congruence.
      + rewrite (first_in_use_unique _ _ _ _ Hb Hb') in Hsz. lia. }
  destruct Hcases as [(Hf & Er & Ew) | (Hnf & b & Hb & Hsz & Er & Ew)].
  - rewrite Er, Ew. simpl.
    split; [tauto|]. split; [tauto|]. split; [auto | contradiction].
  - rewrite Er, Ew. simpl.
    split; [split; [discriminate | contradiction]|].
    split; [split; [discriminate | contradiction]|].
    split; [contradiction|]. intros _.
    exists b, (memcpy_from h (_addr self + offset b) buf nbytes).
    split; [exact Hb|]. split; [exact Hsz|]. cbv zeta.
    split; [reflexivity|]. split; [apply load_bytes_length|].
    split; [reflexivity|]. split.
    + intros i Hi. unfold memcpy_from.
      replace (_addr self + offset b + i - (_addr self + offset b)) with i
        by lia.
      zbool.
    + intros x Hx. unfold memcpy_from. zbool.
Qed.

Lemma read_write_fail_exactly_when_witness :
  let self := snd (fst (allocate fresh10 zero_heap 4)) in
  (read self zero_heap 0 [xff; xff; xff; xff; xff] 3 =
     (true, [x00; x00; x00; xff; xff]) /\
   fst (write self zero_heap 0 hello 3) = true) /\
  (read self zero_heap 0 [xff; xff; xff; xff; xff] 5 =
     (false, [xff; xff; xff; xff; xff]) /\
   write self zero_heap 0 hello 5 = (false, zero_heap)) /\
  read self zero_heap 7 [xff] 1 = (false, [xff]).
Proof.
  intros self.
  assert (Hb : first_in_use self 0 (mkBlock 0 0 4)).
  { exists [], []. split; [reflexivity|]. split; [reflexivity | constructor]. }
  split; [|split].
  - destruct (read_write_fail_exactly_when
                self zero_heap 0 [xff; xff; xff; xff; xff] 3)
      as (_ & _ & _ & Hr).
    destruct (read_write_fail_exactly_when self zero_heap 0 hello 3)
      as (_ & _ & _ & Hw).
    assert (Hnf : ~ (_is_init self = false \/
                     (forall b, In b (_in_use self) -> id b <> 0) \/
                     (exists b, first_in_use self 0 b /\ size b < 3))).
    { intros [Hf | [Hf | (b & Hb' & Hlt)]].
      - discriminate Hf.
      - apply (Hf (mkBlock 0 0 4)); [left|]; reflexivity.
      - rewrite <- (first_in_use_unique _ _ _ _ Hb Hb') in Hlt.
        simpl in Hlt. lia. }
    destruct (Hr Hnf) as (b & h' & Hb' & _ & Er & _).
    destruct (Hw Hnf) as (b2 & h2 & _ & _ & _ & _ & Ew & _).
    rewrite <- (first_in_use_unique _ _ _ _ Hb Hb') in Er.
    split; [exact Er | now rewrite Ew].
  - destruct (read_write_fail_exactly_when
                self zero_heap 0 [xff; xff; xff; xff; xff] 5)
      as (_ & _ & Hr & _).
    destruct (read_write_fail_exactly_when self zero_heap 0 hello 5)
      as (_ & _ & Hw & _).
    assert (Hf : _is_init self = false \/
                 (forall b, In b (_in_use self) -> id b <> 0) \/
                 (exists b, first_in_use self 0 b /\ size b < 5)).
    { right. right. exists (mkBlock 0 0 4). split; [exact Hb | simpl; lia]. }
    split; [apply (Hr Hf) | apply (Hw Hf)].
  - destruct (read_write_fail_exactly_when self zero_heap 7 [xff] 1)
      as (_ & _ & Hr & _).
    apply Hr. right. left. intros b [<-|[]]. simpl. lia.
Defined.

(** ** C10: an owner is created at most once *)

Lemma _allocate_is_init self iter size0 :
  _is_init (snd (_allocate self iter size0)) = _is_init self.
Proof. destruct iter as [[before v] after]. reflexivity. Qed.

Lemma defrag_is_init self h : _is_init (fst (defrag self h)) = _is_init self.
Proof.
  unfold defrag. now destruct (defrag_loop _ _ 0 h) as [[l' o'] h'].
Qed.

Lemma allocate_is_init self h size0 :
  _is_init (snd (fst (allocate self h size0))) = _is_init self.
Proof.
  unfold allocate.
  destruct (_is_init self) eqn:Hi; simpl; [|exact Hi].
  destruct (size0 >? _size self); simpl; [exact Hi|].
  destruct ((size0 =? 0) || is_empty (_vacant self)); simpl; [exact Hi|].
  destruct (scan _ (_vacant self)) as [iter|].
  - pose proof (_allocate_is_init self iter size0) as H.
    destruct (_allocate self iter size0) as [r self']. simpl in *. congruence.
  - pose proof (defrag_is_init self h) as Hd.
    destruct (defrag self h) as [self1 h1]. simpl in Hd.
    destruct (_vacant self1) as [|v after]; simpl; [congruence|].
    destruct (size v >=? size0); simpl; [|congruence].
    pose proof (_allocate_is_init self1 ([], v, after) size0) as H.
    destruct (_allocate self1 ([], v, after) size0) as [r self'].
    simpl in *. congruence.
Qed.

Lemma init_true_is_init self addr size0 self' :
  init self addr size0 = (true, self') -> _is_init self' = true.
Proof.
  unfold init. destruct (_is_init self); [discriminate|].
  destruct ((addr =? NULL) || (size0 =? 0)); [discriminate|].
  intros H. now inversion H.
Qed.

Lemma init_initialized_fails self addr size0 :
  _is_init self = true -> init self addr size0 = (false, self).
Proof. intros H. unfold init. now rewrite H. Qed.

Ltac break_if :=
  match goal with
  | |- context [if ?c then _ else _] => destruct c eqn:?
  | H : context [if ?c then _ else _] |- _ => destruct c eqn:?
  end.

Lemma create_initialized_manager_fails os self h name access size0 :
  _is_init (RemoteMemory._manager self) = true ->
  fst (fst (RemoteMemory.create os self h name access size0)) = false /\
  RemoteMemory._manager
    (snd (fst (RemoteMemory.create os self h name access size0))) =
    RemoteMemory._manager self.
Proof.
  intros Hm. unfold RemoteMemory.create, RemoteMemory.init.
  destruct (RemoteMemory._is_init self); simpl; [auto|].
  destruct (0 <? Z.of_nat (String.length name)); simpl; [|auto].
  destruct (_ =? -1); simpl; [auto|].
  destruct (_ =? -1); simpl; [auto|].
  destruct (negb _); simpl; [auto|].
  rewrite init_initialized_fails by exact Hm. simpl. auto.
Qed.

Lemma create_success_manager os self h name access size0 self' h' :
  RemoteMemory.create os self h name access size0 = (true, self', h') ->
  _is_init (RemoteMemory._manager self') = true.
Proof.
  unfold RemoteMemory.create, RemoteMemory.init.
  destruct (RemoteMemory._is_init self); simpl; [discriminate|].
  destruct (0 <? Z.of_nat (String.length name)); simpl; [|discriminate].
  destruct (_ =? -1); simpl; [discriminate|].
  destruct (_ =? -1); simpl; [discriminate|].
  destruct (negb _); simpl; [discriminate|].
  destruct (init _ _ _) as [ok m] eqn:Ei.
  destruct ok; simpl; [|discriminate].
  apply init_true_is_init in Ei.
  match goal with
  | |- context [allocate m ?b size0] =>
      pose proof (allocate_is_init m b size0) as Ha;
      destruct (allocate m b size0) as [[mem_id m'] h1]
  end.
  simpl in *.
  destruct (mem_id =? -1); simpl; [discriminate|].
  intros H. inversion H; subst. simpl. congruence.
Qed.

Lemma destroy_keeps_manager os self h :
  RemoteMemory._manager (snd (fst (RemoteMemory.destroy os self h))) =
  RemoteMemory._manager self.
Proof.
  unfold RemoteMemory.destroy. repeat (break_if; simpl; auto).
Qed.

Lemma owner_exec_manager st c :
  _is_init (RemoteMemory._manager (fst st)) = true ->
  _is_init (RemoteMemory._manager (fst (Owner.exec st c))) = true.
Proof.
  destruct st as [self h]. simpl. intros Hm. destruct c; simpl; auto.
  - destruct (create_initialized_manager_fails os self h name access size0 Hm)
      as [_ E].
    destruct (RemoteMemory.create os self h name access size0) as [[r s'] h'].
    simpl in *. congruence.
  - pose proof (destroy_keeps_manager os self h) as E.
    destruct (RemoteMemory.destroy os self h) as [[r s'] h'].
    simpl in *. congruence.
  - now destruct (RemoteMemory.write os self h buf size0) as [|[r h']].
Qed.

Lemma owner_run_manager calls : forall st,
  _is_init (RemoteMemory._manager (fst st)) = true ->
  _is_init (RemoteMemory._manager (fst (Owner.run st calls))) = true.
Proof.
  induction calls as [|c calls IH]; simpl; intros st Hm; [exact Hm|].
  apply IH. now apply owner_exec_manager.
Qed.

(** C10.  After a [create] that succeeded and a [destroy] that succeeded,
    the owner is marked as not created while its pool is the one [create]
    initialized: [destroy] does not touch it.  From there on, whatever calls
    are made on the object and whatever the operating system answers, every
    [create] fails. *)
Theorem create_succeeds_at_most_once :
  forall (os1 os2 : posix) (self0 self1 self2 : RemoteMemory.t)
         (h0 h1 h2 : memory)
         (name1 : string) (access1 : access_t) (size1 : Z),
    RemoteMemory.create os1 self0 h0 name1 access1 size1 = (true, self1, h1) ->
    RemoteMemory.destroy os2 self1 h1 = (true, self2, h2) ->
    RemoteMemory._is_init self2 = false /\
    RemoteMemory._manager self2 = RemoteMemory._manager self1 /\
    _is_init (RemoteMemory._manager self2) = true /\
    forall (calls : list Owner.call) (os : posix) (name : string)
           (access : access_t) (size0 : Z),
      let '(self3, h3) := Owner.run (self2, h2) calls in
      fst (fst (RemoteMemory.create os self3 h3 name access size0)) = false.
Proof.
  intros os1 os2 self0 self1 self2 h0 h1 h2 name1 access1 size1 Hc Hd.
  pose proof (create_success_manager _ _ _ _ _ _ _ _ Hc) as Hm1.
  pose proof (destroy_keeps_manager os2 self1 h1) as Hk. rewrite Hd in Hk.
  simpl in Hk.
  assert (Hi : RemoteMemory._is_init self2 = false).
  { revert Hd. unfold RemoteMemory.destroy.
    repeat (break_if; simpl; try discriminate).
    intros H. now inversion H. }
  repeat split; auto; try congruence.
  intros calls os name access size0.
  pose proof (owner_run_manager calls (self2, h2)) as Hr. simpl in Hr.
  destruct (Owner.run (self2, h2) calls) as [self3 h3]. simpl in Hr.
  apply create_initialized_manager_fails. apply Hr. congruence.
Qed.

Lemma create_succeeds_at_most_once_witness :
  exists self1 self2 h1 h2,
    RemoteMemory.create granting_os RemoteMemory.new zero_memory
                        "test1" read_write 10 = (true, self1, h1) /\
    RemoteMemory.destroy granting_os self1 h1 = (true, self2, h2) /\
    RemoteMemory._is_init self2 = false /\
    fst (fst (RemoteMemory.create granting_os self2 h2 "test1" read_write 10))
    = false.
Proof.
  eexists. eexists. eexists. eexists.
  split; [reflexivity|]. split; [reflexivity|].
  pose proof (create_succeeds_at_most_once
                granting_os granting_os RemoteMemory.new _ _ zero_memory _ _
                "test1" read_write 10 eq_refl eq_refl) as (Hi & _ & _ & H).
  split; [exact Hi|].
  exact (H [] granting_os "test1"%string read_write 10).
Defined.

(** ** C9: attaching a client *)

Lemma real_name_slash name0 : exists rest, real_name name0 = String "/" rest.
Proof.
  destruct name0 as [|c rest]; simpl; [eauto|].
  destruct (Ascii.eqb_spec c "/"%char); subst; eauto.
Qed.

Lemma real_name_idempotent name0 : real_name (real_name name0) = real_name name0.
Proof. destruct (real_name_slash name0) as [rest ->]. reflexivity. Qed.

Lemma attach_success os self h name0 access0 size0 id0 id1 self' h' :
  MemoryClient.attach os self h name0 access0 size0 id0 = (true, id1, self', h') ->
  id1 = MemoryClient._last_id self /\
  exists server,
    MemoryClient._servers self' = MemoryClient._servers self ++ [server] /\
    MemoryClient.name server = real_name name0 /\
    MemoryClient.id server = id1 /\
    MemoryClient.access server = access0.
Proof.
  unfold MemoryClient.attach, MemoryClient.Server_init.
  destruct access0; simpl;
    (destruct (Z.of_nat (String.length name0) =? 0); [discriminate|]);
    (destruct (existsb _ _); [discriminate|]);
    (destruct (_ =? -1); [discriminate|]);
    (destruct (negb _); [discriminate|]);
    (destruct (init _ _ _) as [ok m]; simpl);
    (destruct ok; simpl; [|discriminate]);
    (match goal with
     | |- context [allocate m ?b size0] =>
         destruct (allocate m b size0) as [[m_id m'] h1]
     end; simpl);
    (destruct (m_id <? 0); [discriminate|]);
    intros H; inversion H; subst; (split; [reflexivity|]);
    eexists; (split; [reflexivity|]); simpl; auto.
Qed.

Lemma attach_known_name os self h name0 access0 size0 id0 s :
  In s (MemoryClient._servers self) ->
  MemoryClient.name s = real_name name0 ->
  MemoryClient.attach os self h name0 access0 size0 id0 = (false, id0, self, h).
Proof.
  intros Hin Hname. unfold MemoryClient.attach.
  assert (E : existsb (fun s0 => String.eqb (MemoryClient.name s0)
                                            (real_name name0))
                      (MemoryClient._servers self) = true).
  { apply existsb_exists. exists s. split; [assumption|].
    rewrite Hname. apply String.eqb_refl. }
  rewrite E.
  destruct access0; simpl;
    destruct (Z.of_nat (String.length name0) =? 0); reflexivity.
Qed.

(** C9.  [attach] works on the normalized name: the name itself when it
    starts with the separator, the separator followed by the name otherwise;
    that is the name of the record a successful [attach] appends.  [attach]
    fails, and leaves the client, the output handle and the memory as they
    were, when the name is empty and when the client already holds a record
    with the same normalized name.  So after a successful [attach], a second
    one with a name that normalizes to the same name, with or without the
    leading separator, fails whatever the operating system answers, and the
    records are those left by the first. *)
Theorem attach_normalizes_and_rejects_duplicates :
  forall (os os' : posix) (self : MemoryClient.t) (h h'' : memory)
         (name0 name' : string) (access0 access' : access_t)
         (size0 size' id0 id' : Z),
    (forall rest, real_name (String "/" rest) = String "/" rest) /\
    (forall c rest, c <> "/"%char ->
                    real_name (String c rest) = String "/" (String c rest)) /\
    MemoryClient.attach os self h EmptyString access0 size0 id0 =
      (false, id0, self, h) /\
    (forall s, In s (MemoryClient._servers self) ->
               MemoryClient.name s = real_name name0 ->
               MemoryClient.attach os self h name0 access0 size0 id0 =
                 (false, id0, self, h)) /\
    (forall id1 self1 h1,
        MemoryClient.attach os self h name0 access0 size0 id0 =
          (true, id1, self1, h1) ->
        (exists server,
            MemoryClient._servers self1 = MemoryClient._servers self ++ [server] /\
            MemoryClient.name server = real_name name0) /\
        (real_name name' = real_name name0 ->
         MemoryClient.attach os' self1 h'' name' access' size' id' =
           (false, id', self1, h''))).
Proof.
  intros os os' self h h'' name0 name' access0 access' size0 size' id0 id'.
  split; [|split; [|split; [|split]]].
  - reflexivity.
  - intros c rest Hc. simpl. destruct (Ascii.eqb_spec c "/"%char); congruence.
  - unfold MemoryClient.attach. destruct access0; reflexivity.
  - intros s. apply attach_known_name.
  - intros id1 self1 h1 Ha.
    destruct (attach_success _ _ _ _ _ _ _ _ _ _ Ha)
      as (_ & server & Hs & Hn & _).
    split; [exists server; auto|].
    intros Hsame. apply (attach_known_name _ _ _ _ _ _ _ server).
    + rewrite Hs. apply in_or_app. right. left. reflexivity.
    + congruence.
Qed.

Lemma attach_normalizes_and_rejects_duplicates_witness :
  exists self1 m1,
    MemoryClient.attach granting_os MemoryClient.new zero_memory
                        "test1" read_write 10 7 = (true, 0, self1, m1) /\
    map MemoryClient.name (MemoryClient._servers self1) = ["/test1"%string] /\
    MemoryClient.attach granting_os self1 m1 "/test1" read_only 10 7 =
      (false, 7, self1, m1) /\
    MemoryClient.attach granting_os self1 m1 "test1" read_only 10 7 =
      (false, 7, self1, m1).
Proof.
  eexists. eexists. split; [reflexivity|]. split; [reflexivity|].
  split.
  - refine (proj2 (proj2 (proj2 (proj2 (proj2
      (attach_normalizes_and_rejects_duplicates
         granting_os granting_os MemoryClient.new zero_memory _
         "test1" "/test1" read_write read_only 10 10 7 7))))
      _ _ _ eq_refl) eq_refl).
  - refine (proj2 (proj2 (proj2 (proj2 (proj2
      (attach_normalizes_and_rejects_duplicates
         granting_os granting_os MemoryClient.new zero_memory _
         "test1" "test1" read_write read_only 10 10 7 7))))
      _ _ _ eq_refl) eq_refl).
Defined.

(** ** C2: writing through a read-only attachment *)

(** C2 (amended).  In a client, [write] on a handle whose record was attached
    with [read_only] access fails, whatever the operating system answers, and
    the memory, so the bytes of the region, is unchanged; a record that a
    successful [attach] with [read_only] access appends is such a record. *)
Theorem client_write_read_only_fails :
  forall (os : posix) (self : MemoryClient.t) (h : memory) (id0 : Z)
         (buf : list byte) (size0 : Z)
         (before : list MemoryClient.Server) (s : MemoryClient.Server)
         (after : list MemoryClient.Server),
    MemoryClient.lookup self id0 = Some (before, s, after) ->
    MemoryClient.access s = read_only ->
    MemoryClient.write os self h id0 buf size0 = Returns (false, h).
Proof.
  intros os self h id0 buf size0 before s after Hl Ha.
  unfold MemoryClient.write. rewrite Hl, Ha. reflexivity.
Qed.

Lemma client_write_read_only_fails_witness :
  let attached :=
    MemoryClient.attach granting_os MemoryClient.new zero_memory
                        "test2" read_only 10 0 in
  let self1 := snd (fst attached) in
  let m1 := snd attached in
  MemoryClient.write granting_os self1 m1 0 hello 5 = Returns (false, m1).
Proof.
  intros attached self1 m1.
  refine (client_write_read_only_fails
            granting_os self1 m1 0 hello 5 [] _ [] _ _).
  - reflexivity.
  - reflexivity.
Defined.

(** C2 as stated fails for the owner: on a region created with [read_only]
    access, the owner's [write] succeeds and changes the bytes of the
    region. *)
Lemma owner_write_read_only_counterexample :
  let '(created, self1, h1) :=
    RemoteMemory.create granting_os RemoteMemory.new zero_memory
                        "test2" read_only 10 in
  exists h2,
    RemoteMemory.write granting_os self1 h1 hello 5 = Returns (true, h2) /\
    created = true /\
    RemoteMemory._access self1 = read_only /\
    load_bytes (mem_bytes h1) (RemoteMemory._addr self1) 5 =
      [x00; x00; x00; x00; x00] /\
    load_bytes (mem_bytes h2) (RemoteMemory._addr self1) 5 = hello.
Proof. vm_compute. eexists. repeat split. Qed.

(** * Further properties of the code *)

(** ** The ids of the blocks *)

Lemma scan_absent {A} (p : A -> bool) l :
  Forall (fun b => p b = false) l -> scan p l = None.
Proof.
  induction 1 as [|b l Hb _ IH]; simpl; [reflexivity|]. now rewrite Hb, IH.
Qed.

Lemma defrag_loop_ids_sizes addr l : forall o h,
  map id (fst (fst (defrag_loop addr l o h))) = map id l /\
  map size (fst (fst (defrag_loop addr l o h))) = map size l.
Proof.
  induction l as [|b l IH]; simpl; intros o h; [auto|].
  match goal with
  | |- context [defrag_loop addr l ?o' ?h'] =>
      destruct (IH o' h') as [H1 H2];
      destruct (defrag_loop addr l o' h') as [[r1 o1] h1]
  end.
  simpl in *. split; congruence.
Qed.

Lemma defrag_ids_sizes self h :
  map id (_in_use (fst (defrag self h))) = map id (_in_use self) /\
  map size (_in_use (fst (defrag self h))) = map size (_in_use self) /\
  _last_index (fst (defrag self h)) = _last_index self /\
  map id (_vacant (fst (defrag self h))) = [-1].
Proof.
  unfold defrag.
  destruct (defrag_loop_ids_sizes (_addr self) (_in_use self) 0 h) as [H1 H2].
  destruct (defrag_loop _ _ 0 h) as [[l' o'] h']. simpl in *. auto.
Qed.

Lemma int_wrap_succ x : 0 <= x < 2 ^ 31 - 1 -> int_wrap (x + 1) = x + 1.
Proof.
  intros Hx. unfold int_wrap. rewrite Z.mod_small; lia.
Qed.

Lemma defrag_ids_in_order self h :
  ids_in_order self -> ids_in_order (fst (defrag self h)).
Proof.
  intros (H0 & H1 & H2 & H3 & H4).
  destruct (defrag_ids_sizes self h) as (E1 & E2 & E3 & E4).
  unfold ids_in_order. rewrite E1, E2, E3, E4.
  repeat split; auto.
Qed.

Lemma _allocate_ids_in_order self before v after size0 :
  ids_in_order self -> _vacant self = before ++ v :: after ->
  0 < size0 -> _last_index self < 2 ^ 31 - 1 ->
  ids_in_order (snd (_allocate self (before, v, after) size0)) /\
  _last_index (snd (_allocate self (before, v, after) size0)) =
    _last_index self + 1.
Proof.
  intros (H0 & H1 & H2 & H3 & H4) Hv Hsz Hlt.
  unfold _allocate, ids_in_order. cbv zeta.
  rewrite Hv in H4. rewrite map_app in H4. simpl in H4.
  apply Forall_app in H4 as [H4a H4b].
  inversion H4b as [|? ? Hvid H4c]; subst.
  cbn [snd _last_index _in_use _vacant].
  rewrite int_wrap_succ by lia. rewrite !map_app. simpl.
  split; [|reflexivity]. split; [lia|]. split; [|split; [|split]].
  - apply Forall_app. split.
    + revert H1. apply Forall_impl. intros; lia.
    + repeat constructor; lia.
  - apply NoDup_app; [assumption | constructor; [intros [] | constructor] | ].
    intros a Ha [<-|[]].
    rewrite Forall_forall in H1. specialize (H1 _ Ha). lia.
  - apply Forall_app. split; [assumption | repeat constructor; lia].
  - destruct (_ =? 0); rewrite map_app; apply Forall_app; split; auto.
Qed.

Lemma allocate_ids_in_order self h size0 :
  ids_in_order self -> 0 <= size0 -> _last_index self < 2 ^ 31 - 1 ->
  ids_in_order (snd (fst (allocate self h size0))) /\
  _last_index (snd (fst (allocate self h size0))) <= _last_index self + 1.
Proof.
  intros HI Hsz Hlt. unfold allocate.
  destruct (_is_init self); simpl; [|split; [exact HI | lia]].
  destruct (size0 >? _size self); simpl; [split; [exact HI | lia]|].
  destruct (Z.eqb_spec size0 0); simpl; [split; [exact HI | lia]|].
  destruct (is_empty (_vacant self)); simpl; [split; [exact HI | lia]|].
  destruct (scan _ (_vacant self)) as [[[before v] after]|] eqn:Es.
  - apply scan_Some in Es as (Hv & _ & _).
    destruct (_allocate_ids_in_order self before v after size0 HI Hv)
      as [H1 H2]; try lia.
    destruct (_allocate self (before, v, after) size0) as [r self'].
    simpl in *. split; [exact H1 | lia].
  - pose proof (defrag_ids_in_order self h HI) as HI1.
    destruct (defrag_ids_sizes self h) as (_ & _ & El & _).
    destruct (defrag self h) as [self1 h1]. simpl in HI1, El.
    destruct (_vacant self1) as [|v after] eqn:Ev; simpl;
      [split; [exact HI1 | lia]|].
    destruct (size v >=? size0); simpl; [|split; [exact HI1 | lia]].
    destruct (_allocate_ids_in_order self1 [] v after size0 HI1 Ev)
      as [H1 H2]; try lia.
    unfold _allocate in *. simpl in *. split; [exact H1 | lia].
Qed.

Lemma free_ids_in_order self id0 :
  ids_in_order self ->
  ids_in_order (snd (free self id0)) /\
  _last_index (snd (free self id0)) = _last_index self.
Proof.
  intros HI. unfold free.
  destruct (_is_init self); simpl; [|auto]. unfold lookup.
  destruct (scan _ (_in_use self)) as [[[before b] after]|] eqn:Es; [|auto].
  apply scan_Some in Es as (Hu & _ & _).
  destruct HI as (H0 & H1 & H2 & H3 & H4). rewrite Hu in *.
  rewrite map_app in *. simpl in *.
  apply Forall_app in H1 as [H1a H1b]. inversion H1b; subst.
  apply Forall_app in H3 as [H3a H3b]. inversion H3b; subst.
  apply NoDup_remove_1 in H2.
  unfold ids_in_order; simpl. rewrite !map_app. simpl.
  split; [|reflexivity].
  repeat split; auto; apply Forall_app; split; auto.
Qed.

Lemma init_ids_in_order self addr size0 :
  ids_in_order self ->
  ids_in_order (snd (init self addr size0)) /\
  _last_index (snd (init self addr size0)) = _last_index self.
Proof.
  intros HI. unfold init.
  destruct (_is_init self); simpl; [auto|].
  destruct ((addr =? NULL) || (size0 =? 0)); simpl; [auto|].
  destruct HI as (H0 & H1 & H2 & H3 & H4).
  unfold ids_in_order; simpl. rewrite map_app.
  split; [|reflexivity].
  repeat split; auto. apply Forall_app. split; auto. repeat constructor.
Qed.

Lemma exec_ids_in_order st c :
  call_ok c -> ids_in_order (fst st) -> _last_index (fst st) < 2 ^ 31 - 1 ->
  ids_in_order (fst (exec st c)) /\
  _last_index (fst (exec st c)) <= _last_index (fst st) + 1.
Proof.
  destruct st as [self h]. simpl. intros Hok HI Hlt.
  destruct c; simpl in *.
  - destruct (init_ids_in_order self addr size0 HI). split; [assumption | lia].
  - unfold is_size_t in Hok.
    destruct (allocate_ids_in_order self h size0 HI) as [H1 H2]; try lia.
    destruct (allocate self h size0) as [[r self'] h']. auto.
  - destruct (free_ids_in_order self id0 HI). split; [assumption | lia].
  - destruct (defrag_ids_sizes self h) as (_ & _ & El & _).
    split; [now apply defrag_ids_in_order | lia].
  - split; [assumption | lia].
  - split; [assumption | lia].
Qed.

Lemma run_ids_in_order calls : forall st n,
  Forall call_ok calls -> ids_in_order (fst st) ->
  _last_index (fst st) <= n ->
  n + Z.of_nat (List.length calls) < 2 ^ 31 ->
  ids_in_order (fst (run st calls)) /\
  _last_index (fst (run st calls)) <= n + Z.of_nat (List.length calls).
Proof.
  induction calls as [|c calls IH]; intros st n Hok HI Hn Hlt.
  - simpl in *. split; [assumption | lia].
  - inversion Hok as [|? ? Hc Hcs]; subst.
    cbn [run fold_left]. cbn [List.length] in *.
    destruct (exec_ids_in_order st c) as [E1 E2]; auto; try lia.
    destruct (IH (exec st c) (n + 1)) as [E3 E4]; auto; try lia.
    split; [exact E3 | ]. unfold run in E4. lia.
Qed.

Lemma init_new_shape C addr self0 :
  init new addr C = (true, self0) ->
  self0 = mk addr [] true 0 C [mkBlock (-1) 0 C].
Proof.
  unfold init, new. simpl.
  destruct ((addr =? NULL) || (C =? 0)); [discriminate|].
  intros H. now inversion H.
Qed.

Lemma block_ids_ready calls self0 h0 self h C addr :
  init new addr C = (true, self0) ->
  Forall call_ok calls ->
  Z.of_nat (List.length calls) < 2 ^ 31 - 1 ->
  run (self0, h0) calls = (self, h) ->
  ids_in_order self /\ _last_index self < 2 ^ 31 - 1.
Proof.
  intros Hinit Hok Hlen Hrun.
  apply init_new_shape in Hinit. subst self0.
  destruct (run_ids_in_order calls (mk addr [] true 0 C [mkBlock (-1) 0 C], h0) 0)
    as [H1 H2]; auto; simpl; try lia.
  - unfold ids_in_order; simpl. repeat split; auto; try lia; constructor.
  - rewrite Hrun in *. simpl in *. split; [assumption | lia].
Qed.

(** X1.  As long as fewer than [2^31] calls have been made on an allocator,
    the blocks in use carry ids that are distinct, non-negative and below
    the next id, every block in use has a positive size, every vacancy
    carries the sentinel [-1], and the next id is at most the number of
    calls made. *)
Theorem block_ids_stay_distinct :
  forall (C addr : Z) (h : heap) (calls : list call) (self0 : t),
    init new addr C = (true, self0) ->
    Forall call_ok calls ->
    Z.of_nat (List.length calls) < 2 ^ 31 ->
    let self := fst (run (self0, h) calls) in
    ids_in_order self /\ _last_index self <= Z.of_nat (List.length calls).
Proof.
  intros C addr h calls self0 Hinit Hok Hlen self.
  apply init_new_shape in Hinit. subst self0.
  apply (run_ids_in_order calls (_, h) 0); auto; simpl; try lia.
  unfold ids_in_order; simpl. repeat split; auto; try lia; constructor.
Qed.

Lemma block_ids_stay_distinct_witness :
  let self :=
    fst (run (fresh10, zero_heap)
             [Allocate 4; Allocate 3; Free 0; Allocate 2; Defrag]) in
  ids_in_order self /\ _last_index self <= 5.
Proof.
  apply (block_ids_stay_distinct 10 4096 zero_heap).
  - reflexivity.
  - repeat constructor; unfold is_size_t; simpl; lia.
  - simpl. lia.
Defined.

(** ** The outcome of an allocation *)

Lemma total_size_member l1 v l2 :
  Forall (fun b => 0 <= size b) (l1 ++ v :: l2) ->
  size v <= total_size (l1 ++ v :: l2).
Proof.
  intros H. apply Forall_app in H as [H1 H2].
  inversion H2 as [|? ? Hv Hl2]; subst.
  rewrite total_size_app. simpl.
  pose proof (total_size_nonneg _ H1). pose proof (total_size_nonneg _ Hl2).
  lia.
Qed.

Lemma total_size_remainder v size0 :
  size0 <= size v -> total_size (remainder v size0) = size v - size0.
Proof.
  intros H. unfold remainder. destruct (Z.ltb_spec size0 (size v)); simpl; lia.
Qed.

Lemma allocate_outcome C self h size0 :
  is_size_t C -> Inv C self -> is_size_t size0 ->
  let free_space := total_size (_vacant self) in
  (0 < size0 <= free_space /\
   exists in_use1 off vacant' h',
     allocate self h size0 =
       (_last_index self,
        mk (_addr self) (in_use1 ++ [mkBlock (_last_index self) off size0])
           true (int_wrap (_last_index self + 1)) C vacant',
        h') /\
     map id in_use1 = map id (_in_use self) /\
     map size in_use1 = map size (_in_use self) /\
     total_size vacant' = free_space - size0) \/
  (~ 0 < size0 <= free_space /\
   exists self' h',
     allocate self h size0 = (-1, self', h') /\
     map id (_in_use self') = map id (_in_use self) /\
     map size (_in_use self') = map size (_in_use self) /\
     total_size (_vacant self') = free_space /\
     _last_index self' = _last_index self).
Proof.
  intros HC HI Hsz free_space.
  pose proof HI as (Hi & Hs & [Hf Hc] & Ht).
  destruct (Inv_in_use_bound C self HI) as [_ Hused].
  apply Forall_app in Hf as [_ Hfv]. apply within_size_nonneg in Hfv.
  fold free_space in Ht.
  assert (Hunchanged : ~ 0 < size0 <= free_space ->
                       allocate self h size0 = (-1, self, h) ->
                       ~ 0 < size0 <= free_space /\
                       exists self' h',
                         allocate self h size0 = (-1, self', h') /\
                         map id (_in_use self') = map id (_in_use self) /\
                         map size (_in_use self') = map size (_in_use self) /\
                         total_size (_vacant self') = free_space /\
                         _last_index self' = _last_index self).
  { intros Hn E. split; [exact Hn|]. exists self, h. auto. }
  unfold is_size_t in Hsz.
  destruct (Z.le_gt_cases size0 C) as [Hle|Hgt].
  2:{ right. apply Hunchanged; [lia|]. unfold allocate. rewrite Hi, Hs. simpl.
      destruct (Z.gtb_spec size0 C); [reflexivity | lia]. }
  destruct (Z.eq_dec size0 0) as [E0|E0].
  { right. apply Hunchanged; [lia|]. unfold allocate. rewrite Hi, Hs. simpl.
    destruct (Z.gtb_spec size0 C); [reflexivity|].
    subst size0. reflexivity. }
  assert (Hrange : 0 < size0 <= C) by lia.
  pose proof (allocate_guards_pass C self h size0 HI Hrange) as Eg.
  assert (Hemp : _vacant self = [] \/ is_empty (_vacant self) = false)
    by (destruct (_vacant self); auto).
  destruct Hemp as [Hemp|Hemp].
  { right. apply Hunchanged.
    - unfold free_space. rewrite Hemp. simpl. lia.
    - rewrite Eg, Hemp. reflexivity. }
  rewrite Hemp in Eg.
  destruct (scan (fun b => size b >=? size0) (_vacant self))
    as [[[before v] after]|] eqn:Es.
  - left. apply scan_Some in Es as (Hv & Hge & Hbefore).
    rewrite Z.geb_leb in Hge. apply Z.leb_le in Hge.
    assert (Hmem : size v <= free_space).
    { unfold free_space. rewrite Hv. apply total_size_member.
      now rewrite <- Hv. }
    split; [lia|].
    exists (_in_use self), (offset v), (before ++ remainder v size0 ++ after), h.
    split; [|split; [reflexivity | split; [reflexivity|]]].
    + apply (allocate_first_fit C HC self h size0 HI Hrange); auto.
      revert Hbefore. apply Forall_impl. intros b Hb.
      rewrite Z.geb_leb in Hb. now apply Z.leb_gt in Hb.
    + unfold free_space. rewrite Hv, !total_size_app. simpl.
      rewrite total_size_remainder by exact Hge. lia.
  - apply scan_None in Es.
    assert (Hall : Forall (fun b => size b < size0) (_vacant self)).
    { revert Es. apply Forall_impl. intros b Hb.
      rewrite Z.geb_leb in Hb. now apply Z.leb_gt in Hb. }
    assert (Hne : _vacant self <> []).
    { intros E. rewrite E in Hemp. discriminate. }
    pose proof (allocate_second_attempt C HC self h size0 HI Hrange Hne Hall)
      as E2.
    pose proof (defrag_then_retry_shape C HC self h size0 HI Hrange) as E3.
    cbv zeta in E3.
    destruct (defrag_shape C HC self h HI)
      as (l' & h' & Ed & Hid & Hsize & _).
    rewrite Ed in E3. rewrite E3 in E2. clear E3.
    replace (C - total_size (_in_use self)) with free_space in * by lia.
    destruct (Z.leb_spec size0 free_space) as [Hfit|Hnofit].
    + left. split; [lia|].
      exists l', (total_size (_in_use self)),
        (remainder (mkBlock (-1) (total_size (_in_use self)) free_space) size0),
        h'.
      split; [exact E2|]. split; [exact Hid|]. split; [exact Hsize|].
      rewrite total_size_remainder; simpl; lia.
    + right. split; [lia|]. eexists. eexists.
      split; [exact E2|]. simpl. repeat split; auto; lia.
Qed.

(** X2.  In an initialized allocator of capacity [C] the free space is what
    the blocks in use leave of [C], and [allocate] succeeds exactly when the
    requested size is positive and at most the free space, however the free
    space is scattered over the vacancies.  On success it returns the next
    id, appends one block of that id and the requested size to the blocks in
    use, keeps the ids and sizes of the others in order, and the free space
    shrinks by the requested size.  On failure it returns [-1], and the ids
    and sizes in use, the free space and the next id are as before. *)
Theorem allocate_succeeds_iff_free_space :
  forall (C : Z) (self : t) (h : heap) (size0 : Z),
    is_size_t C -> reachable C self h -> is_size_t size0 ->
    let free_space := total_size (_vacant self) in
    let '(r, self', h') := allocate self h size0 in
    free_space = C - total_size (_in_use self) /\
    (0 < size0 <= free_space ->
     r = _last_index self /\
     map id (_in_use self') = map id (_in_use self) ++ [r] /\
     map size (_in_use self') = map size (_in_use self) ++ [size0] /\
     total_size (_vacant self') = free_space - size0) /\
    (~ 0 < size0 <= free_space ->
     r = -1 /\
     map id (_in_use self') = map id (_in_use self) /\
     map size (_in_use self') = map size (_in_use self) /\
     total_size (_vacant self') = free_space /\
     _last_index self' = _last_index self).
Proof.
  intros C self h size0 HC Hr Hsz free_space.
  destruct (reachable_Inv _ _ _ HC Hr) as [Hpos HI].
  pose proof HI as (_ & _ & _ & Ht).
  destruct (allocate_outcome C self h size0 HC HI Hsz)
    as [(Hfit & l1 & off & vac & h1 & E & Hid & Hsize & Hv)
       | (Hno & s1 & h1 & E & Hid & Hsize & Hv & Hl)];
    rewrite E; fold free_space in Hfit || fold free_space in Hno;
    (split; [unfold free_space; lia|]); split; intros H; try contradiction.
  - simpl. rewrite !map_app, Hid, Hsize. simpl. auto.
  - auto.
Qed.

Lemma allocate_succeeds_iff_free_space_witness :
  total_size (_vacant frag10) = 7 /\
  fst (fst (allocate frag10 zero_heap 5)) = 2 /\
  fst (fst (allocate frag10 zero_heap 8)) = -1.
Proof.
  assert (H10 : is_size_t 10) by (unfold is_size_t; lia).
  assert (H5 : is_size_t 5) by (unfold is_size_t; lia).
  assert (H8 : is_size_t 8) by (unfold is_size_t; lia).
  pose proof (allocate_succeeds_iff_free_space
                10 frag10 zero_heap 5 H10 frag10_reachable H5) as A5.
  pose proof (allocate_succeeds_iff_free_space
                10 frag10 zero_heap 8 H10 frag10_reachable H8) as A8.
  cbv zeta in A5, A8.
  destruct (allocate frag10 zero_heap 5) as [[r5 s5] h5].
  destruct (allocate frag10 zero_heap 8) as [[r8 s8] h8].
  destruct A5 as (F & Hyes & _). destruct A8 as (_ & _ & Hno).
  split; [reflexivity|]. simpl. split.
  - destruct Hyes as (-> & _); [|reflexivity]. simpl. lia.
  - destruct Hno as (-> & _); [|reflexivity]. simpl. lia.
Defined.

(** ** A returned id designates the new block; a freed id designates none *)

Lemma ids_below_absent (r : Z) l :
  Forall (fun i => 0 <= i < r) (map id l) ->
  Forall (fun b => (id b =? r) = false) l.
Proof.
  rewrite Forall_map. apply Forall_impl. intros b Hb. apply Z.eqb_neq. lia.
Qed.

(** X3.  While fewer than [2^31 - 1] calls have been made, an [allocate]
    that has the free space it needs returns an id that is not [-1] and
    that no block in use carried; in the allocator it leaves, that id
    designates the new block, of exactly the requested size, placed last;
    and [read] and [write] on that id succeed exactly for the lengths up to
    the requested size. *)
Theorem allocated_id_designates_new_block :
  forall (C addr : Z) (h0 h : heap) (calls : list call) (self0 self : t)
         (size0 : Z),
    is_size_t C ->
    init new addr C = (true, self0) ->
    Forall call_ok calls ->
    Z.of_nat (List.length calls) < 2 ^ 31 - 1 ->
    run (self0, h0) calls = (self, h) ->
    0 < size0 <= total_size (_vacant self) ->
    let '(r, self', h') := allocate self h size0 in
    0 <= r /\ ~ In r (map id (_in_use self)) /\
    (exists before b,
        lookup self' r = Some (before, b, []) /\ id b = r /\ size b = size0) /\
    (forall buf n, fst (read self' h' r buf n) = true <-> n <= size0) /\
    (forall buf n, fst (write self' h' r buf n) = true <-> n <= size0).
Proof.
  intros C addr h0 h calls self0 self size0 HC Hinit Hok Hlen Hrun Hfit.
  assert (Hr : reachable C self h) by (exists addr, self0, h0, calls; auto).
  destruct (reachable_Inv _ _ _ HC Hr) as [Hpos HI].
  destruct (block_ids_ready calls self0 h0 self h C addr) as [Hids Hlast]; auto.
  assert (Hsz : is_size_t size0).
  { destruct (Inv_in_use_bound C self HI) as [_ Hu].
    destruct HI as (_ & _ & _ & Ht). unfold is_size_t in *. lia. }
  destruct (allocate_outcome C self h size0 HC HI Hsz)
    as [(_ & l1 & off & vac & h1 & E & Hid & Hsize & Hv)
       | (Hno & _)]; [|contradiction].
  rewrite E. destruct Hids as (H0 & H1 & H2 & H3 & H4).
  assert (Hlook : lookup (mk (_addr self)
                            (l1 ++ [mkBlock (_last_index self) off size0])
                            true (int_wrap (_last_index self + 1)) C vac)
                         (_last_index self) =
                  Some (l1, mkBlock (_last_index self) off size0, [])).
  { unfold lookup. simpl. apply scan_first.
    - apply ids_below_absent. now rewrite Hid.
    - simpl. apply Z.eqb_refl. }
  split; [lia|]. split.
  { intros Hin. rewrite Forall_forall in H1. specialize (H1 _ Hin). lia. }
  split; [eauto|].
  split; intros buf n; unfold read, write; rewrite Hlook; simpl;
    destruct (Z.ltb_spec size0 n); simpl; split; intros; try lia;
    try discriminate; reflexivity.
Qed.

Lemma allocated_id_designates_new_block_witness :
  let '(r, self', h') := allocate frag10 zero_heap 5 in
  0 <= r /\ ~ In r (map id (_in_use frag10)) /\
  (exists before b,
      lookup self' r = Some (before, b, []) /\ id b = r /\ size b = 5) /\
  (forall buf n, fst (read self' h' r buf n) = true <-> n <= 5) /\
  (forall buf n, fst (write self' h' r buf n) = true <-> n <= 5).
Proof.
  apply (allocated_id_designates_new_block
           10 4096 zero_heap zero_heap
           [Allocate 4; Allocate 3; Free 0] fresh10 frag10 5).
  - unfold is_size_t. lia.
  - reflexivity.
  - repeat constructor; unfold is_size_t; simpl; lia.
  - simpl. lia.
  - reflexivity.
  - simpl. lia.
Defined.

(** X4.  While fewer than [2^31 - 1] calls have been made, a successful
    [free] retires the id: the block it designated goes from the blocks in
    use to the free space with its size, no block in use carries the id any
    more, and a second [free], a [read] or a [write] on that id fails and
    changes nothing. *)
Theorem freed_id_is_retired :
  forall (C addr : Z) (h0 h : heap) (calls : list call) (self0 self self' : t)
         (id0 : Z),
    init new addr C = (true, self0) ->
    Forall call_ok calls ->
    Z.of_nat (List.length calls) < 2 ^ 31 - 1 ->
    run (self0, h0) calls = (self, h) ->
    free self id0 = (true, self') ->
    (exists before b after,
        _in_use self = before ++ b :: after /\ id b = id0 /\
        _in_use self' = before ++ after /\
        total_size (_in_use self') = total_size (_in_use self) - size b /\
        total_size (_vacant self') = total_size (_vacant self) + size b) /\
    ~ In id0 (map id (_in_use self')) /\
    free self' id0 = (false, self') /\
    forall h1 buf n,
      read self' h1 id0 buf n = (false, buf) /\
      write self' h1 id0 buf n = (false, h1).
Proof.
  intros C addr h0 h calls self0 self self' id0 Hinit Hok Hlen Hrun Hfree.
  destruct (block_ids_ready calls self0 h0 self h C addr)
    as [(H0 & H1 & H2 & H3 & H4) _]; auto.
  unfold free in Hfree.
  destruct (_is_init self) eqn:Hi; simpl in Hfree; [|discriminate].
  unfold lookup in Hfree.
  destruct (scan _ (_in_use self)) as [[[before b] after]|] eqn:Es;
    [|discriminate].
  apply scan_Some in Es as (Hu & Hb & _). apply Z.eqb_eq in Hb.
  inversion Hfree; subst self'. clear Hfree.
  rewrite Hu, map_app in H2. simpl in H2.
  pose proof (NoDup_remove_2 _ _ _ H2) as Hnot. rewrite Hb in Hnot.
  rewrite <- map_app in Hnot.
  assert (Hlook : lookup (mk (_addr self) (before ++ after) true
                            (_last_index self) (_size self)
                            (_vacant self ++ [mkBlock (-1) (offset b) (size b)]))
                         id0 = None).
  { unfold lookup. simpl. apply scan_absent. apply Forall_forall.
    intros x Hx. apply Z.eqb_neq. intros Hid. apply Hnot.
    rewrite <- Hid. now apply in_map. }
  split; [|split; [exact Hnot | split]].
  - exists before, b, after. simpl.
    rewrite Hu, !total_size_app. simpl. repeat split; auto; lia.
  - unfold free. rewrite Hlook. reflexivity.
  - intros h1 buf n. unfold read, write. rewrite Hlook. simpl. auto.
Qed.

Lemma freed_id_is_retired_witness :
  let self := snd (fst (allocate fresh10 zero_heap 4)) in
  let self' := snd (free self 0) in
  ~ In 0 (map id (_in_use self')) /\ free self' 0 = (false, self').
Proof.
  intros self self'.
  pose proof (freed_id_is_retired
                10 4096 zero_heap zero_heap [Allocate 4] fresh10 self self' 0)
    as H.
  destruct H as (_ & Hnot & Hfree & _).
  - reflexivity.
  - repeat constructor; unfold is_size_t; simpl; lia.
  - simpl. lia.
  - reflexivity.
  - reflexivity.
  - split; assumption.
Defined.

(** ** Blocks do not share bytes *)

Lemma cover_count_member p b l :
  In b l -> covers p b = true -> (1 <= cover_count p l)%nat.
Proof.
  induction l as [|x l IH]; simpl; intros Hin Hc; [contradiction|].
  destruct Hin as [->|Hin].
  - rewrite Hc. lia.
  - specialize (IH Hin Hc). lia.
Qed.

Lemma cover_count_two p b1 b2 l :
  In b1 l -> In b2 l -> id b1 <> id b2 ->
  covers p b1 = true -> covers p b2 = true -> (2 <= cover_count p l)%nat.
Proof.
  induction l as [|x l IH]; simpl; intros H1 H2 Hne C1 C2; [contradiction|].
  destruct H1 as [->|H1], H2 as [E|H2].
  - subst. congruence.
  - rewrite C1. pose proof (cover_count_member p b2 l H2 C2). lia.
  - subst. rewrite C2. pose proof (cover_count_member p b1 l H1 C1). lia.
  - specialize (IH H1 H2 Hne C1 C2). lia.
Qed.

Lemma load_bytes_ext h h' a m :
  (forall i, 0 <= i < m -> h' (a + i) = h (a + i)) ->
  load_bytes h' a m = load_bytes h a m.
Proof.
  intros H. unfold load_bytes. apply map_ext_in. intros i Hi.
  apply in_seq in Hi. apply H. lia.
Qed.

Lemma lookup_member self id0 before b after :
  lookup self id0 = Some (before, b, after) ->
  In b (_in_use self) /\ id b = id0.
Proof.
  unfold lookup. intros H. apply scan_Some in H as (-> & Hb & _).
  split; [apply in_or_app; right; left; reflexivity | now apply Z.eqb_eq].
Qed.

(** X5.  In an initialized allocator of capacity [C] a successful [write] on
    one id changes no byte outside the buffer [_addr, _addr + C) and no byte
    of a block with another id: a [read] on any other id gives afterwards
    what it gave before. *)
Theorem write_keeps_other_blocks :
  forall (C : Z) (self : t) (h h' : heap) (id1 id2 : Z)
         (buf out : list byte) (n m : Z),
    is_size_t C -> reachable C self h ->
    write self h id1 buf n = (true, h') ->
    (forall a, a < _addr self \/ _addr self + C <= a -> h' a = h a) /\
    (id1 <> id2 -> read self h' id2 out m = read self h id2 out m).
Proof.
  intros C self h h' id1 id2 buf out n m HC Hr Hw.
  destruct (reachable_Inv _ _ _ HC Hr) as [Hpos (_ & _ & [Hf Hc] & _)].
  destruct (read_write_cases self h id1 buf n)
    as [(_ & _ & E) | [(_ & _ & _ & E) | [(? & ? & ? & _ & _ & _ & _ & E)
        | (bf1 & b1 & af1 & Hi & Hl1 & Hn & _ & E)]]];
    rewrite E in Hw; try discriminate.
  inversion Hw; subst h'. clear Hw E.
  destruct (lookup_member _ _ _ _ _ Hl1) as [Hin1 Hid1].
  assert (Hw1 : within C b1).
  { rewrite Forall_forall in Hf. apply Hf. apply in_or_app. now left. }
  destruct Hw1 as (Ho1 & Hs1 & He1).
  split.
  - intros a Ha. unfold memcpy_from. zbool.
  - intros Hne. unfold read. rewrite Hi. simpl.
    destruct (lookup self id2) as [[[bf2 b2] af2]|] eqn:Hl2; [|reflexivity].
    destruct (Z.ltb_spec (size b2) m); [reflexivity|].
    destruct (lookup_member _ _ _ _ _ Hl2) as [Hin2 Hid2].
    assert (Hw2 : within C b2).
    { rewrite Forall_forall in Hf. apply Hf. apply in_or_app. now left. }
    destruct Hw2 as (Ho2 & Hs2 & He2).
    unfold memcpy_to. f_equal. f_equal. apply load_bytes_ext.
    intros i Hi2. unfold memcpy_from.
    destruct ((_addr self + offset b1 <=? _addr self + offset b2 + i) &&
              (_addr self + offset b2 + i <? _addr self + offset b1 + n))
      eqn:Hov; [|reflexivity].
    exfalso. apply andb_prop in Hov as [Hlo Hhi].
    apply Z.leb_le in Hlo. apply Z.ltb_lt in Hhi.
    assert (Hp : 0 <= offset b2 + i < C) by lia.
    specialize (Hc _ Hp).
    assert (2 <= cover_count (offset b2 + i) (_in_use self ++ _vacant self))%nat.
    { apply (cover_count_two _ b1 b2).
      - apply in_or_app. now left.
      - apply in_or_app. now left.
      - congruence.
      - unfold covers. apply andb_true_intro.
        split; [apply Z.leb_le | apply Z.ltb_lt]; lia.
      - unfold covers. apply andb_true_intro.
        split; [apply Z.leb_le | apply Z.ltb_lt]; lia. }
    lia.
Qed.

Lemma write_keeps_other_blocks_witness :
  let self := fst (run (fresh10, zero_heap) [Allocate 4; Allocate 3]) in
  let h' := snd (write self zero_heap 1 hello 3) in
  read self h' 0 [xff; xff; xff; xff] 4 = read self zero_heap 0 [xff; xff; xff; xff] 4.
Proof.
  intros self h'.
  refine (proj2 (write_keeps_other_blocks
                   10 self zero_heap h' 1 0 hello _ 3 4 _ _ _) _).
  - unfold is_size_t. lia.
  - exists 4096, fresh10, zero_heap, [Allocate 4; Allocate 3].
    split; [reflexivity|]. split; [|reflexivity].
    repeat constructor; unfold is_size_t; simpl; lia.
  - reflexivity.
  - lia.
Defined.

(** ** The owner of a region *)

Arguments after_mmap : simpl never.
Arguments after_munmap : simpl never.

Lemma mem_bytes_after_mmap m a s p :
  mem_bytes (after_mmap m a s p) = mem_bytes m.
Proof. unfold after_mmap. now destruct (a =? MAP_FAILED). Qed.

Lemma mem_bytes_after_munmap m rc a s :
  mem_bytes (after_munmap m rc a s) = mem_bytes m.
Proof. unfold after_munmap. now destruct (rc =? -1). Qed.

Lemma with_bytes_same m : with_bytes m (mem_bytes m) = m.
Proof. now destruct m. Qed.

Lemma with_bytes_after_mmap m a s p :
  with_bytes (after_mmap m a s p) (mem_bytes m) = after_mmap m a s p.
Proof.
  rewrite <- (mem_bytes_after_mmap m a s p). apply with_bytes_same.
Qed.

Lemma allocate_whole_region addr size0 h :
  (addr =? NULL) || (size0 =? 0) = false ->
  init new addr size0 =
    (true, mk addr [] true 0 size0 [mkBlock (-1) 0 size0]) /\
  allocate (mk addr [] true 0 size0 [mkBlock (-1) 0 size0]) h size0 =
    (0, whole_region addr size0, h).
Proof.
  intros H. unfold init, new. simpl. rewrite H. split; [reflexivity|].
  apply orb_false_elim in H as [_ H0].
  unfold allocate. simpl. rewrite Z.gtb_ltb, Z.ltb_irrefl, H0. simpl.
  rewrite Z.geb_leb, Z.leb_refl. unfold _allocate. simpl.
  rewrite Z.sub_diag. reflexivity.
Qed.

(** X6.  On an owner that is not created and whose pool was never
    initialized, [create] succeeds exactly when the name is not empty,
    [shm_open] (called with the normalized name, [O_CREAT | O_RDWR | O_EXCL]
    and the mode 0700, 0744 for [read_only], 0777 for [read_write]) does not
    return [-1], [ftruncate] to the size does not return [-1], [errno] is 0
    after [mmap] (read-write, shared), the mapping is not [NULL] and the size
    is not 0.  It then records the access, the mapping, the descriptor, the
    normalized name and the size, and its pool holds the whole region as one
    block with id 0 at offset 0.  It never touches the bytes of the memory;
    the mapping that [mmap] returns, once [ftruncate] has succeeded, is the
    only change of the address space, whether [create] succeeds or not. *)
Theorem create_succeeds_exactly_when :
  forall (os : posix) (self : RemoteMemory.t) (h : memory)
         (name : string) (access : access_t) (size0 : Z),
    RemoteMemory._is_init self = false ->
    RemoteMemory._manager self = MemoryManager.new ->
    let mode := match access with
                | none => 448 | read_only => 484 | read_write => 511
                end in
    let fd := shm_open os (real_name name) 194 mode in
    let addr := mmap os NULL size0 3 MAP_SHARED fd 0 in
    let ok :=
      negb (Z.of_nat (String.length name) =? 0) && negb (fd =? -1) &&
      negb (ftruncate os fd size0 =? -1) && (errno os =? 0) &&
      negb (addr =? NULL) && negb (size0 =? 0) in
    let mapped :=
      negb (Z.of_nat (String.length name) =? 0) && negb (fd =? -1) &&
      negb (ftruncate os fd size0 =? -1) in
    fst (fst (RemoteMemory.create os self h name access size0)) = ok /\
    mem_bytes (snd (RemoteMemory.create os self h name access size0)) =
      mem_bytes h /\
    snd (RemoteMemory.create os self h name access size0) =
      (if mapped then after_mmap h addr size0 3 else h) /\
    (ok = true ->
     snd (fst (RemoteMemory.create os self h name access size0)) =
       RemoteMemory.mk access addr fd true (whole_region addr size0) 0
                       (real_name name) size0).
Proof.
  intros os self h name access size0 Hi Hm mode fd addr ok mapped.
  subst mapped ok addr fd mode.
  unfold RemoteMemory.create, RemoteMemory.init. rewrite Hi. cbv iota.
  replace (0 <? Z.of_nat (String.length name))
    with (negb (Z.of_nat (String.length name) =? 0))
    by (destruct name; reflexivity).
  destruct (Z.of_nat (String.length name) =? 0);
    [simpl; repeat split; auto; discriminate|].
  unfold S_IRWXU, S_IRGRP, S_IROTH, S_IRWXG, S_IRWXO, O_CREAT, O_RDWR, O_EXCL,
    PROT_READ, PROT_WRITE.
  destruct access; simpl;
    (match goal with
     | |- context [shm_open os ?a ?b ?c] => set (fd := shm_open os a b c)
     end);
    (destruct (fd =? -1); simpl; [repeat split; auto; discriminate|]);
    (destruct (ftruncate os fd size0 =? -1); simpl;
     [repeat split; auto; discriminate|]);
    (match goal with
     | |- context [mmap os ?a ?b ?c ?d ?e ?f] =>
         set (addr := mmap os a b c d e f)
     end);
    (destruct (errno os =? 0); simpl;
     [|repeat split; auto using mem_bytes_after_mmap; discriminate]);
    rewrite Hm;
    (destruct ((addr =? NULL) || (size0 =? 0)) eqn:Hz;
     [ unfold init, new; simpl; rewrite Hz; simpl;
       apply orb_true_iff in Hz as [Hz | Hz]; rewrite Hz; simpl;
       rewrite ?andb_false_r;
       repeat split; auto using mem_bytes_after_mmap; discriminate
     | rewrite mem_bytes_after_mmap;
       destruct (allocate_whole_region addr size0 (mem_bytes h) Hz) as [Ei Ea];
       rewrite Ei; simpl; rewrite Ea; simpl;
       rewrite with_bytes_after_mmap;
       apply orb_false_elim in Hz as [Hz1 Hz2]; rewrite Hz1, Hz2; simpl;
       repeat split; auto using mem_bytes_after_mmap ]).
Qed.

Lemma create_succeeds_exactly_when_witness :
  RemoteMemory.create granting_os RemoteMemory.new zero_memory
                      "test1" read_only 10
  = (true,
     RemoteMemory.mk read_only 4096 3 true (whole_region 4096 10) 0 "/test1" 10,
     after_mmap zero_memory 4096 10 3).
Proof.
  pose proof (create_succeeds_exactly_when
                granting_os RemoteMemory.new zero_memory "test1" read_only 10
                eq_refl eq_refl) as (H1 & _ & H2 & H3).
  specialize (H3 eq_refl).
  destruct (RemoteMemory.create granting_os RemoteMemory.new zero_memory
                                "test1" read_only 10) as [[r s] h1].
  simpl in *. now rewrite H1, H2, H3.
Defined.

Lemma create_new_pool_cases os self h name access size0 :
  RemoteMemory._is_init self = false ->
  RemoteMemory._manager self = MemoryManager.new ->
  (exists addr fd,
      RemoteMemory.create os self h name access size0 =
        (true,
         RemoteMemory.mk access addr fd true (whole_region addr size0) 0
                         (real_name name) size0,
         after_mmap h addr size0 (Z.lor PROT_READ PROT_WRITE)) /\
      addr <> NULL /\ size0 <> 0) \/
  (fst (fst (RemoteMemory.create os self h name access size0)) = false /\
   RemoteMemory._is_init
     (snd (fst (RemoteMemory.create os self h name access size0))) = false /\
   RemoteMemory._manager
     (snd (fst (RemoteMemory.create os self h name access size0))) =
     MemoryManager.new).
Proof.
  intros Hi Hm. unfold RemoteMemory.create, RemoteMemory.init.
  rewrite Hi. cbv iota.
  destruct (0 <? Z.of_nat (String.length name)); simpl; [|auto].
  destruct (_ =? -1); simpl; [auto|].
  destruct (_ =? -1); simpl; [auto|].
  destruct (negb _); simpl; [auto|].
  rewrite Hm.
  match goal with
  | |- context [init new ?a ?s] =>
      destruct ((a =? NULL) || (s =? 0)) eqn:Hz;
      [ right; unfold init, new; simpl; rewrite Hz; simpl; auto
      | left; rewrite mem_bytes_after_mmap;
        destruct (allocate_whole_region a s (mem_bytes h) Hz) as [Ei Ea];
        rewrite Ei; simpl; rewrite Ea; simpl;
        rewrite with_bytes_after_mmap;
        apply orb_false_elim in Hz as [Hz1 Hz2];
        apply Z.eqb_neq in Hz1; apply Z.eqb_neq in Hz2;
        eexists; eexists; split; [reflexivity | auto] ]
  end.
Qed.

Lemma owner_exec_consistent st c :
  owner_consistent (fst st) -> owner_consistent (fst (Owner.exec st c)).
Proof.
  destruct st as [self h]. simpl. intros HI. destruct c; simpl; auto.
  - destruct HI as [(Hi & Hrest) | (Hi & [Hm | Hm])].
    + replace (RemoteMemory.create os self h name access size0)
        with (false, self, h).
      * left. auto.
      * unfold RemoteMemory.create, RemoteMemory.init. now rewrite Hi.
    + destruct (create_new_pool_cases os self h name access size0 Hi Hm)
        as [(a & fd & E & Ha & Hs) | (Hr & Hi' & Hm')].
      * rewrite E. left. simpl. auto.
      * destruct (RemoteMemory.create os self h name access size0)
          as [[r self'] h'].
        simpl in *. right. auto.
    + destruct (create_initialized_manager_fails os self h name access size0 Hm)
        as [Hr Hk].
      assert (Hi' : RemoteMemory._is_init
                      (snd (fst (RemoteMemory.create os self h name access size0)))
                    = false).
      { revert Hr. unfold RemoteMemory.create, RemoteMemory.init.
        rewrite Hi. cbv iota.
        destruct (0 <? Z.of_nat (String.length name)); simpl; [|auto].
        destruct (_ =? -1); simpl; [auto|].
        destruct (_ =? -1); simpl; [auto|].
        destruct (negb _); simpl; [auto|].
        rewrite init_initialized_fails by exact Hm. simpl. auto. }
      destruct (RemoteMemory.create os self h name access size0)
        as [[r self'] h'].
      simpl in *. right. split; [assumption|]. right. congruence.
  - unfold RemoteMemory.destroy.
    destruct HI as [(Hi & Hm & Hrest) | (Hi & Hm)]; rewrite Hi; simpl.
    + repeat (break_if; simpl); try (left; now auto).
      right. simpl. split; [reflexivity|]. right. rewrite Hm. reflexivity.
    + right. auto.
  - now destruct (RemoteMemory.write os self h buf size0) as [|[r h']].
Qed.

Lemma owner_run_consistent calls : forall st,
  owner_consistent (fst st) -> owner_consistent (fst (Owner.run st calls)).
Proof.
  induction calls as [|c calls IH]; simpl; intros st HI; [exact HI|].
  apply IH. now apply owner_exec_consistent.
Qed.

Lemma created_owner_shape calls (h0 : memory) :
  let '(self, h) := Owner.run (RemoteMemory.new, h0) calls in
  RemoteMemory._is_init self = true ->
  RemoteMemory._manager self =
    whole_region (RemoteMemory._addr self) (RemoteMemory._size self) /\
  RemoteMemory._mem_id self = 0.
Proof.
  pose proof (owner_run_consistent calls (RemoteMemory.new, h0)) as H.
  destruct (Owner.run (RemoteMemory.new, h0) calls) as [self h]. simpl in H.
  intros Hi. destruct H as [(_ & H1 & H2 & _) | (Hf & _)].
  - right. split; [reflexivity|]. now left.
  - auto.
  - congruence.
Qed.

(** X7.  Whatever calls are made on an owner, from its construction on, and
    whatever the operating system answers: whenever the owner is created, its
    pool holds exactly one block, with id 0, at offset 0 and of the size of
    the region, and no vacancy; the stored id is 0, the mapping is not [NULL]
    and the size is not 0. *)
Theorem created_owner_holds_whole_region :
  forall (calls : list Owner.call) (h0 : memory),
    let '(self, h) := Owner.run (RemoteMemory.new, h0) calls in
    RemoteMemory._is_init self = true ->
    RemoteMemory._manager self =
      whole_region (RemoteMemory._addr self) (RemoteMemory._size self) /\
    RemoteMemory._mem_id self = 0 /\
    RemoteMemory._addr self <> NULL /\ RemoteMemory._size self <> 0.
Proof.
  intros calls h0.
  pose proof (owner_run_consistent calls (RemoteMemory.new, h0)) as H.
  destruct (Owner.run (RemoteMemory.new, h0) calls) as [self h]. simpl in H.
  intros Hi. destruct H as [(_ & H) | (Hf & _)].
  - right. split; [reflexivity|]. now left.
  - exact H.
  - congruence.
Qed.

Lemma whole_region_read addr size0 h buf n :
  read (whole_region addr size0) h 0 buf n =
    if n <=? size0
    then (true, load_bytes h addr n ++ skipn (Z.to_nat n) buf)
    else (false, buf).
Proof.
  unfold read, whole_region, lookup. simpl. rewrite Z.add_0_r.
  destruct (Z.ltb_spec size0 n), (Z.leb_spec n size0); try lia; reflexivity.
Qed.

Lemma whole_region_write addr size0 h buf n :
  write (whole_region addr size0) h 0 buf n =
    if n <=? size0 then (true, memcpy_from h addr buf n) else (false, h).
Proof.
  unfold write, whole_region, lookup. simpl. rewrite Z.add_0_r.
  destruct (Z.ltb_spec size0 n), (Z.leb_spec n size0); try lia; reflexivity.
Qed.

Lemma whole_region_address addr size0 :
  block_address (whole_region addr size0) 0 = addr.
Proof. unfold block_address, whole_region, lookup. simpl. lia. Qed.

Lemma whole_region_read_mapped addr size0 m buf n :
  read_mapped (whole_region addr size0) m 0 buf n =
    if n <=? size0
    then if accessible m PROT_READ addr n
         then Returns (true, load_bytes (mem_bytes m) addr n ++
                             skipn (Z.to_nat n) buf)
         else Faults
    else Returns (false, buf).
Proof.
  unfold read_mapped. rewrite whole_region_read, whole_region_address.
  now destruct (n <=? size0).
Qed.

Lemma whole_region_write_mapped addr size0 m buf n :
  write_mapped (whole_region addr size0) m 0 buf n =
    if n <=? size0
    then if accessible m PROT_WRITE addr n
         then Returns (true, with_bytes m (memcpy_from (mem_bytes m) addr buf n))
         else Faults
    else Returns (false, m).
Proof.
  unfold write_mapped. rewrite whole_region_write, whole_region_address.
  now destruct (n <=? size0).
Qed.

Lemma accessible_after_mmap m addr size0 prot need n :
  addr <> MAP_FAILED -> Z.land prot need <> 0 -> n <= size0 ->
  (forall a, addr <= a < addr + n -> mem_backed m a = true) ->
  accessible (after_mmap m addr size0 prot) need addr n = true.
Proof.
  intros Ha Hp Hn Hb. unfold accessible, after_mmap.
  apply Z.eqb_neq in Ha. rewrite Ha. apply forallb_forall. intros i Hi.
  apply in_seq in Hi. simpl.
  destruct (Z.leb_spec addr (addr + Z.of_nat i)); [|lia].
  destruct (Z.ltb_spec (addr + Z.of_nat i) (addr + size0)); [|lia]. simpl.
  apply Z.eqb_neq in Hp. rewrite Hp. simpl. apply Hb. lia.
Qed.

Lemma accessible_after_munmap m rc addr size0 need n :
  rc <> -1 -> 0 < n <= size0 ->
  accessible (after_munmap m rc addr size0) need addr n = false.
Proof.
  intros Hrc Hn. unfold accessible, after_munmap.
  apply Z.eqb_neq in Hrc. rewrite Hrc. simpl.
  destruct (Z.to_nat n) as [|k] eqn:Ek; [lia|]. simpl.
  rewrite Z.add_0_r, Z.leb_refl.
  destruct (Z.ltb_spec addr (addr + size0)); [|lia]. reflexivity.
Qed.

(** X8.  On a created owner, [read] returns [false] for a length beyond the
    size of the region.  For a length up to the size it reaches the copy from
    the start of the mapping: it returns [true] and the bytes there when they
    may be read, and it faults when they may not, as after a [destroy] that
    unmapped the region and then failed, which leaves the owner created.
    [write] returns [false] when [mlock] fails or the length is beyond the
    size; otherwise it reaches the copy to the start of the mapping, faults
    when the bytes may not be written, and else stores them and returns [true]
    only if [munlock] and [msync] succeed too, so a [write] that returns
    [false] may have changed the region.  Where the region may be read and
    written, the bytes that [write] stored are the bytes a following [read]
    of the same length returns. *)
Theorem owner_read_write_outcome :
  forall (calls : list Owner.call) (m0 m : memory) (self : RemoteMemory.t)
         (os : posix) (buf out : list byte) (n : Z),
    Owner.run (RemoteMemory.new, m0) calls = (self, m) ->
    RemoteMemory._is_init self = true ->
    let A := RemoteMemory._addr self in
    let S := RemoteMemory._size self in
    RemoteMemory.read self m out n =
      (if n <=? S
       then if accessible m PROT_READ A n
            then Returns (true, load_bytes (mem_bytes m) A n ++
                                skipn (Z.to_nat n) out)
            else Faults
       else Returns (false, out)) /\
    RemoteMemory.write os self m buf n =
      (if (mlock os A S =? -1) || negb (n <=? S) then Returns (false, m)
       else if accessible m PROT_WRITE A n
            then Returns (negb (munlock os A S =? -1) &&
                          negb (msync os A S 6 =? -1),
                          with_bytes m (memcpy_from (mem_bytes m) A buf n))
            else Faults) /\
    ((mlock os A S =? -1) = false -> 0 <= n <= S ->
     n <= Z.of_nat (List.length buf) ->
     accessible m PROT_WRITE A n = true ->
     accessible m PROT_READ A n = true ->
     exists r m',
       RemoteMemory.write os self m buf n = Returns (r, m') /\
       RemoteMemory.read self m' out n =
         Returns (true, firstn (Z.to_nat n) buf ++ skipn (Z.to_nat n) out)).
Proof.
  intros calls m0 m self os buf out n Hrun Hi A S.
  pose proof (created_owner_shape calls m0) as Hshape.
  rewrite Hrun in Hshape. destruct (Hshape Hi) as (Hm & Hid).
  assert (Hread : forall m1,
             RemoteMemory.read self m1 out n =
               if n <=? S
               then if accessible m1 PROT_READ A n
                    then Returns (true, load_bytes (mem_bytes m1) A n ++
                                        skipn (Z.to_nat n) out)
                    else Faults
               else Returns (false, out)).
  { intros m1. unfold RemoteMemory.read. rewrite Hi, Hm, Hid. simpl.
    rewrite whole_region_read_mapped. fold A S.
    destruct (n <=? S); [|reflexivity].
    now destruct (accessible m1 PROT_READ A n). }
  assert (Hwrite :
            RemoteMemory.write os self m buf n =
              if (mlock os A S =? -1) || negb (n <=? S) then Returns (false, m)
              else if accessible m PROT_WRITE A n
                   then Returns (negb (munlock os A S =? -1) &&
                                 negb (msync os A S 6 =? -1),
                                 with_bytes m (memcpy_from (mem_bytes m) A buf n))
                   else Faults).
  { unfold RemoteMemory.write. rewrite Hi, Hm, Hid. simpl. fold A S.
    destruct (mlock os A S =? -1); simpl; [reflexivity|].
    rewrite whole_region_write_mapped. fold A S.
    destruct (n <=? S); simpl; [|reflexivity].
    destruct (accessible m PROT_WRITE A n); [|reflexivity]. simpl.
    change (Z.lor MS_SYNC MS_INVALIDATE) with 6.
    destruct (munlock os A S =? -1); simpl; [reflexivity|].
    destruct (msync os A S 6 =? -1); reflexivity. }
  split; [apply Hread|]. split; [exact Hwrite|].
  intros Hlock Hn Hlen Hw Hr. rewrite Hwrite, Hlock, Hw.
  destruct (Z.leb_spec n S) as [Hle|]; [|lia]. simpl.
  eexists. eexists. split; [reflexivity|].
  rewrite Hread.
  change (accessible (with_bytes m (memcpy_from (mem_bytes m) A buf n))
                     PROT_READ A n)
    with (accessible m PROT_READ A n).
  rewrite Hr. simpl. now rewrite load_bytes_memcpy_from by lia.
Qed.

Lemma owner_read_write_outcome_witness :
  let created :=
    Owner.run (RemoteMemory.new, zero_memory)
              [Owner.Create granting_os "test2" read_only 10] in
  let unmapped := Owner.exec created (Owner.Destroy unlink_failing_os) in
  (exists r m',
     RemoteMemory.write granting_os (fst created) (snd created) hello 5 =
       Returns (r, m') /\
     RemoteMemory.read (fst created) m' [x00; x00; x00; x00; x00; x00] 5 =
       Returns (true, [x68; x65; x6c; x6c; x6f; x00])) /\
  RemoteMemory._is_init (fst unmapped) = true /\
  RemoteMemory.read (fst unmapped) (snd unmapped)
                    [x00; x00; x00; x00; x00; x00] 5 = Faults.
Proof.
  intros created unmapped.
  pose proof (owner_read_write_outcome
                [Owner.Create granting_os "test2" read_only 10]
                zero_memory (snd created) (fst created) granting_os hello
                [x00; x00; x00; x00; x00; x00] 5 eq_refl eq_refl)
    as (_ & _ & Hround).
  pose proof (owner_read_write_outcome
                [Owner.Create granting_os "test2" read_only 10;
                 Owner.Destroy unlink_failing_os]
                zero_memory (snd unmapped) (fst unmapped) granting_os hello
                [x00; x00; x00; x00; x00; x00] 5 eq_refl eq_refl)
    as (Hread & _ & _).
  split; [|split; [reflexivity|]].
  - apply Hround;
      [reflexivity | split; cbv; discriminate | cbv; discriminate
       | reflexivity | reflexivity].
  - exact Hread.
Defined.

(** ** The records of a client *)

Lemma attach_outcome :
  forall (os : posix) (self : MemoryClient.t) (h : memory)
         (name0 : string) (access0 : access_t) (size0 id0 : Z),
    let oflag := match access0 with read_write => 2 | _ => 0 end in
    let prot := match access0 with
                | none => 0 | read_only => 1 | read_write => 3
                end in
    let fd := shm_open os (real_name name0) oflag 0 in
    let addr := mmap os NULL size0 prot MAP_SHARED fd 0 in
    let ok :=
      negb (Z.of_nat (String.length name0) =? 0) &&
      negb (existsb (fun s => String.eqb (MemoryClient.name s) (real_name name0))
                    (MemoryClient._servers self)) &&
      negb (fd =? -1) && (errno os =? 0) &&
      negb (addr =? NULL) && negb (size0 =? 0) in
    let mapped :=
      negb (Z.of_nat (String.length name0) =? 0) &&
      negb (existsb (fun s => String.eqb (MemoryClient.name s) (real_name name0))
                    (MemoryClient._servers self)) &&
      negb (fd =? -1) in
    MemoryClient.attach os self h name0 access0 size0 id0 =
      if ok
      then (true, MemoryClient._last_id self,
            MemoryClient.mk
              (int_wrap (MemoryClient._last_id self + 1))
              (MemoryClient._servers self ++
               [MemoryClient.mkServer access0 addr fd (MemoryClient._last_id self)
                                      (whole_region addr size0) 0
                                      (real_name name0) size0]),
            after_mmap h addr size0 prot)
      else (false, id0, self,
            if mapped then after_mmap h addr size0 prot else h).
Proof.
  intros os self h name0 access0 size0 id0 oflag prot fd addr ok mapped.
  subst mapped ok addr fd prot oflag.
  unfold MemoryClient.attach, MemoryClient.Server_init, MemoryClient.Server_new.
  unfold O_RDONLY, O_RDWR, PROT_NONE, PROT_READ, PROT_WRITE.
  destruct access0; simpl;
    (destruct (Z.of_nat (String.length name0) =? 0); simpl; [reflexivity|]);
    (destruct (existsb _ _); simpl; [reflexivity|]);
    (match goal with
     | |- context [shm_open os ?a ?b ?c] => set (fd := shm_open os a b c)
     end);
    (destruct (fd =? -1); simpl; [reflexivity|]);
    (match goal with
     | |- context [mmap os ?a ?b ?c ?d ?e ?f] =>
         set (addr := mmap os a b c d e f)
     end);
    (destruct (errno os =? 0); simpl; [|reflexivity]);
    (destruct ((addr =? NULL) || (size0 =? 0)) eqn:Hz;
     [ unfold init, new; simpl; rewrite Hz; simpl;
       apply orb_true_iff in Hz as [Hz | Hz]; rewrite Hz; simpl;
       rewrite ?andb_false_r; reflexivity
     | rewrite mem_bytes_after_mmap;
       destruct (allocate_whole_region addr size0 (mem_bytes h) Hz) as [Ei Ea];
       rewrite Ei; simpl; rewrite Ea; simpl;
       rewrite with_bytes_after_mmap;
       apply orb_false_elim in Hz as [Hz1 Hz2]; rewrite Hz1, Hz2; simpl;
       reflexivity ]).
Qed.

(** X9.  [attach] succeeds exactly when the name is not empty, no record of
    the client has the normalized name, [shm_open] (called with the
    normalized name, without [O_CREAT], read-only unless the access is
    [read_write]) does not return [-1], [errno] is 0 after [mmap], the
    mapping is not [NULL] and the size is not 0.  It then returns the next
    handle and appends one record, with that handle, the normalized name and
    a pool that holds the whole region as one block with id 0 at offset 0.
    Otherwise it returns [false] and the output handle and the client are as
    before.  In both cases the bytes of the memory are untouched; the mapping
    that [mmap] returns, once [shm_open] has succeeded, is the only change of
    the address space, whether [attach] succeeds or not. *)
Theorem attach_succeeds_exactly_when :
  forall (os : posix) (self : MemoryClient.t) (h : memory)
         (name0 : string) (access0 : access_t) (size0 id0 : Z),
    let oflag := match access0 with read_write => 2 | _ => 0 end in
    let prot := match access0 with
                | none => 0 | read_only => 1 | read_write => 3
                end in
    let fd := shm_open os (real_name name0) oflag 0 in
    let addr := mmap os NULL size0 prot MAP_SHARED fd 0 in
    let ok :=
      negb (Z.of_nat (String.length name0) =? 0) &&
      negb (existsb (fun s => String.eqb (MemoryClient.name s) (real_name name0))
                    (MemoryClient._servers self)) &&
      negb (fd =? -1) && (errno os =? 0) &&
      negb (addr =? NULL) && negb (size0 =? 0) in
    let mapped :=
      negb (Z.of_nat (String.length name0) =? 0) &&
      negb (existsb (fun s => String.eqb (MemoryClient.name s) (real_name name0))
                    (MemoryClient._servers self)) &&
      negb (fd =? -1) in
    let result := MemoryClient.attach os self h name0 access0 size0 id0 in
    fst (fst (fst result)) = ok /\
    mem_bytes (snd result) = mem_bytes h /\
    snd result = (if mapped then after_mmap h addr size0 prot else h) /\
    (ok = true ->
     snd (fst (fst result)) = MemoryClient._last_id self /\
     snd (fst result) =
       MemoryClient.mk
         (int_wrap (MemoryClient._last_id self + 1))
         (MemoryClient._servers self ++
          [MemoryClient.mkServer access0 addr fd (MemoryClient._last_id self)
                                 (whole_region addr size0) 0
                                 (real_name name0) size0])) /\
    (ok = false ->
     snd (fst (fst result)) = id0 /\ snd (fst result) = self).
Proof.
  intros os self h name0 access0 size0 id0 oflag prot fd addr ok mapped result.
  subst result. rewrite attach_outcome. fold oflag prot fd addr ok mapped.
  assert (Hmapped : ok = true -> mapped = true).
  { subst ok mapped. intros H.
    apply andb_prop in H as [H _]. apply andb_prop in H as [H _].
    now apply andb_prop in H as [H _]. }
  destruct ok; simpl.
  - rewrite Hmapped by reflexivity.
    repeat split; auto using mem_bytes_after_mmap; discriminate.
  - destruct mapped;
      repeat split; auto using mem_bytes_after_mmap; discriminate.
Qed.

Lemma existsb_name_false (l : list MemoryClient.Server) n :
  existsb (fun s => String.eqb (MemoryClient.name s) n) l = false ->
  ~ In n (map MemoryClient.name l).
Proof.
  intros H Hin. apply in_map_iff in Hin as (s & Hs & Hin).
  assert (E : existsb (fun s => String.eqb (MemoryClient.name s) n) l = true).
  { apply existsb_exists. exists s. split; [assumption|].
    rewrite Hs. apply String.eqb_refl. }
  congruence.
Qed.

Lemma attach_records os self h name0 access0 size0 id0 :
  Forall record_consistent (MemoryClient._servers self) ->
  NoDup (map MemoryClient.name (MemoryClient._servers self)) ->
  let self' :=
    snd (fst (MemoryClient.attach os self h name0 access0 size0 id0)) in
  Forall record_consistent (MemoryClient._servers self') /\
  NoDup (map MemoryClient.name (MemoryClient._servers self')).
Proof.
  intros Hf Hn self'. subst self'. rewrite attach_outcome.
  match goal with |- context [if ?c then _ else _] => destruct c eqn:Hok end;
    simpl; [|auto].
  repeat (apply andb_prop in Hok as [Hok ?]).
  repeat match goal with
         | H : negb ?c = true |- _ => apply negb_true_iff in H
         end.
  split.
  - apply Forall_app. split; [assumption|]. constructor; [|constructor].
    unfold record_consistent. simpl.
    repeat split; auto using real_name_idempotent; now apply Z.eqb_neq.
  - rewrite map_app. simpl. apply NoDup_app; auto.
    + constructor; [intros [] | constructor].
    + intros a Ha [<-|[]]. revert Ha. now apply existsb_name_false.
Qed.

Lemma destroy_servers os self m id0 :
  (MemoryClient.lookup self id0 = None /\
   MemoryClient.destroy os self m id0 = (false, self, m)) \/
  (exists m',
      MemoryClient.destroy os self m id0 = (false, self, m') /\
      mem_bytes m' = mem_bytes m) \/
  exists before s after,
    MemoryClient.destroy os self m id0 =
      (true, MemoryClient.mk (MemoryClient._last_id self) (before ++ after),
       after_munmap m (munmap os (MemoryClient.addr s) (MemoryClient.size s))
                    (MemoryClient.addr s) (MemoryClient.size s)) /\
    MemoryClient._servers self = before ++ s :: after /\
    MemoryClient.id s = id0 /\
    munmap os (MemoryClient.addr s) (MemoryClient.size s) <> -1 /\
    close os (MemoryClient.fd s) <> -1.
Proof.
  unfold MemoryClient.destroy, MemoryClient.lookup.
  destruct (scan _ (MemoryClient._servers self)) as [[[before s] after]|] eqn:Es;
    [|now left].
  right.
  apply scan_Some in Es as (Hs & Hid & _). apply Z.eqb_eq in Hid.
  destruct (Z.eqb_spec (munmap os (MemoryClient.addr s) (MemoryClient.size s)) (-1));
    simpl; [left; eauto using mem_bytes_after_munmap|].
  destruct (Z.eqb_spec (close os (MemoryClient.fd s)) (-1)); simpl;
    [left; eauto using mem_bytes_after_munmap|].
  right. exists before, s, after. auto.
Qed.

Lemma destroy_records os self m id0 :
  Forall record_consistent (MemoryClient._servers self) ->
  NoDup (map MemoryClient.name (MemoryClient._servers self)) ->
  let self' := snd (fst (MemoryClient.destroy os self m id0)) in
  Forall record_consistent (MemoryClient._servers self') /\
  NoDup (map MemoryClient.name (MemoryClient._servers self')).
Proof.
  intros Hf Hn self'. subst self'.
  destruct (destroy_servers os self m id0)
    as [(_ & ->) | [(m' & -> & _) | (before & s & after & -> & Hs & _)]];
    [auto | auto |].
  rewrite Hs in *. simpl. rewrite map_app in *. simpl in Hn.
  apply NoDup_remove_1 in Hn.
  apply Forall_app in Hf as [Hf1 Hf2]. inversion Hf2; subst.
  split; [apply Forall_app; auto | assumption].
Qed.

Lemma client_exec_records st c :
  Forall record_consistent (MemoryClient._servers (fst st)) /\
  NoDup (map MemoryClient.name (MemoryClient._servers (fst st))) ->
  Forall record_consistent (MemoryClient._servers (fst (Client.exec st c))) /\
  NoDup (map MemoryClient.name (MemoryClient._servers (fst (Client.exec st c)))).
Proof.
  destruct st as [self h]. simpl. intros [Hf Hn]. destruct c; simpl; auto.
  - pose proof (attach_records os self h name access size0 id0 Hf Hn) as H.
    destruct (MemoryClient.attach os self h name access size0 id0)
      as [[[r i] self'] h'].
    exact H.
  - pose proof (destroy_records os self h id0 Hf Hn) as H.
    destruct (MemoryClient.destroy os self h id0) as [[r self'] h'].
    exact H.
  - now destruct (MemoryClient.write os self h id0 buf size0) as [|[r h']].
Qed.

Lemma client_run_records calls : forall st,
  Forall record_consistent (MemoryClient._servers (fst st)) /\
  NoDup (map MemoryClient.name (MemoryClient._servers (fst st))) ->
  Forall record_consistent (MemoryClient._servers (fst (Client.run st calls))) /\
  NoDup (map MemoryClient.name
             (MemoryClient._servers (fst (Client.run st calls)))).
Proof.
  induction calls as [|c calls IH]; simpl; intros st Hst; [exact Hst|].
  apply IH. now apply client_exec_records.
Qed.

(** X10.  Whatever calls are made on a client, from its construction on, and
    whatever the operating system answers: no two records of the client have
    the same name, every name is normalized, and the pool of every record
    holds exactly one block, with id 0 (the id the record stores), at offset
    0 and of the size of the record, over a mapping that is not [NULL]. *)
Theorem client_records_stay_consistent :
  forall (calls : list Client.call) (h0 : memory),
    let self := fst (Client.run (MemoryClient.new, h0) calls) in
    Forall record_consistent (MemoryClient._servers self) /\
    NoDup (map MemoryClient.name (MemoryClient._servers self)).
Proof.
  intros calls h0 self. subst self.
  apply client_run_records. simpl. split; constructor.
Qed.

Lemma attach_handles os self h name0 access0 size0 id0 :
  handles_in_order self -> MemoryClient._last_id self < 2 ^ 31 - 1 ->
  let self' :=
    snd (fst (MemoryClient.attach os self h name0 access0 size0 id0)) in
  handles_in_order self' /\
  MemoryClient._last_id self' <= MemoryClient._last_id self + 1.
Proof.
  intros (H0 & H1 & H2) Hlt self'. subst self'. rewrite attach_outcome.
  match goal with |- context [if ?c then _ else _] => destruct c end;
    simpl; [|split; [split; auto | lia]].
  rewrite int_wrap_succ by lia.
  split; [|lia]. unfold handles_in_order. simpl. rewrite map_app. simpl.
  split; [lia|]. split.
  - apply Forall_app. split.
    + revert H1. apply Forall_impl. intros; lia.
    + repeat constructor; lia.
  - apply NoDup_app; auto.
    + constructor; [intros [] | constructor].
    + intros a Ha [<-|[]]. rewrite Forall_forall in H1.
      specialize (H1 _ Ha). lia.
Qed.

Lemma destroy_handles os self m id0 :
  handles_in_order self ->
  let self' := snd (fst (MemoryClient.destroy os self m id0)) in
  handles_in_order self' /\
  MemoryClient._last_id self' = MemoryClient._last_id self.
Proof.
  intros HI self'. subst self'.
  destruct (destroy_servers os self m id0)
    as [(_ & ->) | [(m' & -> & _) | (before & s & after & -> & Hs & _)]];
    [auto | auto |].
  destruct HI as (H0 & H1 & H2). rewrite Hs in *. simpl.
  rewrite map_app in *. simpl in *.
  apply NoDup_remove_1 in H2.
  apply Forall_app in H1 as [H1a H1b]. inversion H1b; subst.
  split; [|reflexivity]. unfold handles_in_order. simpl. rewrite map_app.
  split; [assumption|]. split; [apply Forall_app; auto | assumption].
Qed.

Lemma client_exec_handles st c :
  handles_in_order (fst st) -> MemoryClient._last_id (fst st) < 2 ^ 31 - 1 ->
  handles_in_order (fst (Client.exec st c)) /\
  MemoryClient._last_id (fst (Client.exec st c)) <=
    MemoryClient._last_id (fst st) + 1.
Proof.
  destruct st as [self h]. simpl. intros HI Hlt. destruct c; simpl.
  - pose proof (attach_handles os self h name access size0 id0 HI Hlt) as H.
    destruct (MemoryClient.attach os self h name access size0 id0)
      as [[[r i] self'] h'].
    exact H.
  - destruct (destroy_handles os self h id0 HI) as [H1 H2].
    destruct (MemoryClient.destroy os self h id0) as [[r self'] h'].
    simpl in *. split; [assumption | lia].
  - split; [assumption | lia].
  - destruct (MemoryClient.write os self h id0 buf size0) as [|[r h']];
      simpl; (split; [assumption | lia]).
Qed.

Lemma client_run_handles calls : forall st n,
  handles_in_order (fst st) -> MemoryClient._last_id (fst st) <= n ->
  n + Z.of_nat (List.length calls) < 2 ^ 31 ->
  handles_in_order (fst (Client.run st calls)) /\
  MemoryClient._last_id (fst (Client.run st calls)) <=
    n + Z.of_nat (List.length calls).
Proof.
  induction calls as [|c calls IH]; intros st n HI Hn Hlt.
  - simpl in *. split; [assumption | lia].
  - cbn [Client.run fold_left]. cbn [List.length] in *.
    destruct (client_exec_handles st c) as [E1 E2]; auto; try lia.
    destruct (IH (Client.exec st c) (n + 1)) as [E3 E4]; auto; try lia.
    split; [exact E3|]. unfold Client.run in E4. lia.
Qed.

Lemma new_client_handles : handles_in_order MemoryClient.new.
Proof. unfold handles_in_order. simpl. repeat split; try lia; constructor. Qed.

(** X11.  As long as fewer than [2^31] calls have been made on a client, its
    records carry handles that are distinct, non-negative and below the next
    handle, and the next handle is at most the number of calls made. *)
Theorem client_handles_stay_distinct :
  forall (calls : list Client.call) (h0 : memory),
    Z.of_nat (List.length calls) < 2 ^ 31 ->
    let self := fst (Client.run (MemoryClient.new, h0) calls) in
    handles_in_order self /\
    MemoryClient._last_id self <= Z.of_nat (List.length calls).
Proof.
  intros calls h0 Hlen self.
  apply (client_run_handles calls (MemoryClient.new, h0) 0);
    simpl; try lia. exact new_client_handles.
Qed.

Lemma client_handles_stay_distinct_witness :
  let self :=
    fst (Client.run (MemoryClient.new, zero_memory)
                    [Client.Attach granting_os "test1" read_write 10 0;
                     Client.Attach granting_os "test2" read_only 10 0;
                     Client.Destroy granting_os 0;
                     Client.Attach granting_os "test1" read_only 10 0]) in
  handles_in_order self /\ MemoryClient._last_id self <= 4.
Proof.
  exact (client_handles_stay_distinct
           [Client.Attach granting_os "test1" read_write 10 0;
            Client.Attach granting_os "test2" read_only 10 0;
            Client.Destroy granting_os 0;
            Client.Attach granting_os "test1" read_only 10 0]
           zero_memory eq_refl).
Defined.

Lemma client_run_ready calls h0 self h :
  Client.run (MemoryClient.new, h0) calls = (self, h) ->
  Z.of_nat (List.length calls) < 2 ^ 31 - 1 ->
  handles_in_order self /\ MemoryClient._last_id self < 2 ^ 31 - 1 /\
  Forall record_consistent (MemoryClient._servers self) /\
  NoDup (map MemoryClient.name (MemoryClient._servers self)).
Proof.
  intros Hrun Hlen.
  destruct (client_run_handles calls (MemoryClient.new, h0) 0) as [H1 H2];
    [exact new_client_handles | cbn [fst MemoryClient._last_id MemoryClient.new];
                                lia | lia |].
  destruct (client_run_records calls (MemoryClient.new, h0)) as [H3 H4];
    [simpl; split; constructor|].
  rewrite Hrun in *. cbn [fst] in *.
  split; [exact H1|]. split; [lia|]. split; assumption.
Qed.

Lemma handles_below_absent (r : Z) (l : list MemoryClient.Server) :
  Forall (fun i => 0 <= i < r) (map MemoryClient.id l) ->
  Forall (fun s => (MemoryClient.id s =? r) = false) l.
Proof.
  rewrite Forall_map. apply Forall_impl. intros s Hs. apply Z.eqb_neq. lia.
Qed.

(** X12.  While fewer than [2^31 - 1] calls have been made on a client, the
    handle a successful [attach] returns is carried by no earlier record and
    designates the record just appended, which has the access and the size
    given to [attach] and the normalized name; the earlier records are
    kept, in order. *)
Theorem attached_handle_designates_new_record :
  forall (calls : list Client.call) (h0 h h1 : memory)
         (self self1 : MemoryClient.t) (os : posix)
         (name0 : string) (access0 : access_t) (size0 id0 id1 : Z),
    Client.run (MemoryClient.new, h0) calls = (self, h) ->
    Z.of_nat (List.length calls) < 2 ^ 31 - 1 ->
    MemoryClient.attach os self h name0 access0 size0 id0 =
      (true, id1, self1, h1) ->
    0 <= id1 /\
    ~ In id1 (map MemoryClient.id (MemoryClient._servers self)) /\
    exists server,
      MemoryClient.lookup self1 id1 =
        Some (MemoryClient._servers self, server, []) /\
      MemoryClient.id server = id1 /\
      MemoryClient.access server = access0 /\
      MemoryClient.size server = size0 /\
      MemoryClient.name server = real_name name0.
Proof.
  intros calls h0 h h1 self self1 os name0 access0 size0 id0 id1 Hrun Hlen Ha.
  destruct (client_run_ready calls h0 self h Hrun Hlen)
    as ((H0 & H1 & H2) & Hlt & _).
  rewrite attach_outcome in Ha.
  match type of Ha with (if ?c then _ else _) = _ => destruct c end;
    [|discriminate].
  inversion Ha; subst. clear Ha.
  split; [assumption|]. split.
  { intros Hin. rewrite Forall_forall in H1. specialize (H1 _ Hin). lia. }
  eexists. split.
  - unfold MemoryClient.lookup. simpl. apply scan_first.
    + now apply handles_below_absent.
    + simpl. apply Z.eqb_refl.
  - simpl. repeat split; reflexivity.
Qed.

Lemma attached_handle_designates_new_record_witness :
  let st :=
    Client.run (MemoryClient.new, zero_memory)
               [Client.Attach granting_os "test1" read_write 10 0] in
  let self := fst st in
  let self1 :=
    snd (fst (MemoryClient.attach granting_os self (snd st)
                                  "test2" read_only 10 0)) in
  exists server,
    MemoryClient.lookup self1 1 = Some (MemoryClient._servers self, server, []) /\
    MemoryClient.access server = read_only /\
    MemoryClient.name server = "/test2"%string.
Proof.
  intros st self self1.
  destruct (attached_handle_designates_new_record
              [Client.Attach granting_os "test1" read_write 10 0]
              zero_memory (snd st)
              (snd (MemoryClient.attach granting_os self (snd st)
                                        "test2" read_only 10 0))
              self self1 granting_os
              "test2" read_only 10 0 1 eq_refl eq_refl eq_refl)
    as (_ & _ & server & Hl & _ & Ha & _ & Hn).
  exists server. auto.
Defined.

Lemma client_read_outcome self m id0 out n before s after :
  MemoryClient.lookup self id0 = Some (before, s, after) ->
  record_consistent s ->
  MemoryClient.read self m id0 out n =
    if n <=? MemoryClient.size s
    then if accessible m PROT_READ (MemoryClient.addr s) n
         then Returns (true,
                       load_bytes (mem_bytes m) (MemoryClient.addr s) n ++
                       skipn (Z.to_nat n) out)
         else Faults
    else Returns (false, out).
Proof.
  intros Hl (Hm & Hid & _). unfold MemoryClient.read.
  rewrite Hl, Hm, Hid, whole_region_read_mapped.
  destruct (n <=? MemoryClient.size s); [|reflexivity].
  now destruct (accessible m PROT_READ (MemoryClient.addr s) n).
Qed.

Lemma client_write_outcome os self m id0 buf n before s after :
  MemoryClient.lookup self id0 = Some (before, s, after) ->
  record_consistent s ->
  let A := MemoryClient.addr s in
  let S := MemoryClient.size s in
  MemoryClient.write os self m id0 buf n =
    if negb (access_eqb (MemoryClient.access s) read_write) ||
       (mlock os A S =? -1) || negb (n <=? S)
    then Returns (false, m)
    else if accessible m PROT_WRITE A n
         then Returns (negb (munlock os A S =? -1) &&
                       negb (msync os A S 6 =? -1),
                       with_bytes m (memcpy_from (mem_bytes m) A buf n))
         else Faults.
Proof.
  intros Hl (Hm & Hid & _) A S. unfold MemoryClient.write.
  rewrite Hl, Hm, Hid, whole_region_write_mapped. fold A S.
  destruct (access_eqb (MemoryClient.access s) read_write); simpl;
    [|reflexivity].
  destruct (mlock os A S =? -1); simpl; [reflexivity|].
  destruct (n <=? S); simpl; [|reflexivity].
  destruct (accessible m PROT_WRITE A n); [|reflexivity]. simpl.
  change (Z.lor MS_SYNC MS_INVALIDATE) with 6.
  destruct (munlock os A S =? -1); simpl; [reflexivity|].
  destruct (msync os A S 6 =? -1); reflexivity.
Qed.

(** X13.  Through a handle that designates a record of a client, [read]
    returns [false] for a length beyond the size of the record.  For a length
    up to the size it reaches the copy from the start of the mapping of the
    record: it returns [true] and the bytes there when they may be read, and
    it faults when they may not, as for a record attached with the access
    [none], which is mapped with [PROT_NONE], or after a [destroy] that
    unmapped the region and then failed, which keeps the record.  [write]
    returns [false] without touching the memory unless the access is
    [read_write], [mlock] succeeds and the length is at most the size; it
    then reaches the copy to the start of the mapping, faults when the bytes
    may not be written, and else stores them and returns [true] only if
    [munlock] and [msync] succeed too.  Where the region may be read and
    written, the bytes that [write] stored are the bytes a following [read]
    of the same length returns. *)
Theorem client_read_write_outcome :
  forall (calls : list Client.call) (m0 m : memory) (self : MemoryClient.t)
         (os : posix) (id0 : Z) (buf out : list byte) (n : Z)
         (before : list MemoryClient.Server) (s : MemoryClient.Server)
         (after : list MemoryClient.Server),
    Client.run (MemoryClient.new, m0) calls = (self, m) ->
    MemoryClient.lookup self id0 = Some (before, s, after) ->
    let A := MemoryClient.addr s in
    let S := MemoryClient.size s in
    MemoryClient.read self m id0 out n =
      (if n <=? S
       then if accessible m PROT_READ A n
            then Returns (true, load_bytes (mem_bytes m) A n ++
                                skipn (Z.to_nat n) out)
            else Faults
       else Returns (false, out)) /\
    MemoryClient.write os self m id0 buf n =
      (if negb (access_eqb (MemoryClient.access s) read_write) ||
          (mlock os A S =? -1) || negb (n <=? S)
       then Returns (false, m)
       else if accessible m PROT_WRITE A n
            then Returns (negb (munlock os A S =? -1) &&
                          negb (msync os A S 6 =? -1),
                          with_bytes m (memcpy_from (mem_bytes m) A buf n))
            else Faults) /\
    (MemoryClient.access s = read_write ->
     (mlock os A S =? -1) = false -> 0 <= n <= S ->
     n <= Z.of_nat (List.length buf) ->
     accessible m PROT_WRITE A n = true ->
     accessible m PROT_READ A n = true ->
     exists r m',
       MemoryClient.write os self m id0 buf n = Returns (r, m') /\
       MemoryClient.read self m' id0 out n =
         Returns (true, firstn (Z.to_nat n) buf ++ skipn (Z.to_nat n) out)).
Proof.
  intros calls m0 m self os id0 buf out n before s after Hrun Hl A S.
  destruct (client_run_records calls (MemoryClient.new, m0)) as [Hrec _];
    [simpl; split; constructor|].
  rewrite Hrun in Hrec. simpl in Hrec.
  assert (Hs : record_consistent s).
  { rewrite Forall_forall in Hrec. apply Hrec.
    unfold MemoryClient.lookup in Hl. apply scan_Some in Hl as (-> & _).
    apply in_or_app. right. left. reflexivity. }
  split; [now apply (client_read_outcome _ _ _ _ _ before s after)|].
  split; [now apply (client_write_outcome _ _ _ _ _ _ before s after)|].
  intros Hacc Hlock Hn Hlen Hw Hr.
  rewrite (client_write_outcome os self m id0 buf n before s after Hl Hs).
  fold A S. rewrite Hacc, Hlock, Hw. simpl.
  destruct (Z.leb_spec n S) as [Hle|]; [|lia]. simpl.
  eexists. eexists. split; [reflexivity|].
  rewrite (client_read_outcome self _ id0 out n before s after Hl Hs).
  fold A S. apply Z.leb_le in Hle. rewrite Hle.
  change (accessible (with_bytes m (memcpy_from (mem_bytes m) A buf n))
                     PROT_READ A n)
    with (accessible m PROT_READ A n).
  rewrite Hr. simpl. now rewrite load_bytes_memcpy_from by lia.
Qed.

Lemma client_read_write_outcome_witness :
  let attached :=
    Client.run (MemoryClient.new, zero_memory)
               [Client.Attach granting_os "test1" read_write 10 0] in
  let unmapped := Client.exec attached (Client.Destroy close_failing_os 0) in
  let closed :=
    Client.run (MemoryClient.new, zero_memory)
               [Client.Attach granting_os "test1" none 10 0] in
  (exists r m',
     MemoryClient.write granting_os (fst attached) (snd attached) 0 hello 5 =
       Returns (r, m') /\
     MemoryClient.read (fst attached) m' 0 [x00; x00; x00; x00; x00; x00] 5 =
       Returns (true, [x68; x65; x6c; x6c; x6f; x00])) /\
  fst unmapped = fst attached /\
  MemoryClient.read (fst unmapped) (snd unmapped) 0
                    [x00; x00; x00; x00; x00; x00] 5 = Faults /\
  MemoryClient.read (fst closed) (snd closed) 0
                    [x00; x00; x00; x00; x00; x00] 5 = Faults.
Proof.
  intros attached unmapped closed.
  pose proof (client_read_write_outcome
                [Client.Attach granting_os "test1" read_write 10 0]
                zero_memory (snd attached) (fst attached) granting_os 0 hello
                [x00; x00; x00; x00; x00; x00] 5 [] _ [] eq_refl eq_refl)
    as (_ & _ & Hround).
  pose proof (client_read_write_outcome
                [Client.Attach granting_os "test1" read_write 10 0;
                 Client.Destroy close_failing_os 0]
                zero_memory (snd unmapped) (fst unmapped) granting_os 0 hello
                [x00; x00; x00; x00; x00; x00] 5 [] _ [] eq_refl eq_refl)
    as (Hread & _ & _).
  pose proof (client_read_write_outcome
                [Client.Attach granting_os "test1" none 10 0]
                zero_memory (snd closed) (fst closed) granting_os 0 hello
                [x00; x00; x00; x00; x00; x00] 5 [] _ [] eq_refl eq_refl)
    as (Hnone & _ & _).
  split; [|split; [reflexivity|split]].
  - apply Hround;
      [reflexivity | reflexivity | split; cbv; discriminate | cbv; discriminate
       | reflexivity | reflexivity].
  - exact Hread.
  - exact Hnone.
Defined.

(** X14.  While fewer than [2^31 - 1] calls have been made on a client, a
    successful [destroy] removes exactly the record the handle designated
    and keeps the others in order; [munmap] and [close] succeeded on that
    record, whose region is no longer mapped and whose bytes are untouched;
    afterwards no record carries the handle or the name of the removed
    record, so [destroy], [read] and [write] on the handle fail and change
    nothing. *)
Theorem destroyed_handle_is_retired :
  forall (calls : list Client.call) (h0 h h' : memory)
         (self self' : MemoryClient.t) (os : posix) (id0 : Z),
    Client.run (MemoryClient.new, h0) calls = (self, h) ->
    Z.of_nat (List.length calls) < 2 ^ 31 - 1 ->
    MemoryClient.destroy os self h id0 = (true, self', h') ->
    exists before s after,
      MemoryClient._servers self = before ++ s :: after /\
      MemoryClient.id s = id0 /\
      MemoryClient._servers self' = before ++ after /\
      munmap os (MemoryClient.addr s) (MemoryClient.size s) <> -1 /\
      close os (MemoryClient.fd s) <> -1 /\
      h' = after_munmap h (munmap os (MemoryClient.addr s) (MemoryClient.size s))
                        (MemoryClient.addr s) (MemoryClient.size s) /\
      mem_bytes h' = mem_bytes h /\
      ~ In id0 (map MemoryClient.id (MemoryClient._servers self')) /\
      ~ In (MemoryClient.name s)
           (map MemoryClient.name (MemoryClient._servers self')) /\
      (forall os1 h1,
          MemoryClient.destroy os1 self' h1 id0 = (false, self', h1)) /\
      (forall h1 out n,
          MemoryClient.read self' h1 id0 out n = Returns (false, out)) /\
      (forall os1 h1 buf n,
          MemoryClient.write os1 self' h1 id0 buf n = Returns (false, h1)).
Proof.
  intros calls h0 h h' self self' os id0 Hrun Hlen Hd.
  destruct (client_run_ready calls h0 self h Hrun Hlen)
    as ((_ & _ & Hids) & _ & _ & Hnames).
  destruct (destroy_servers os self h id0)
    as [(_ & E) | [(m' & E & _) | (before & s & after & E & Hs & Hid & Hm & Hc)]].
  { rewrite E in Hd. discriminate. }
  { rewrite E in Hd. discriminate. }
  rewrite E in Hd. injection Hd as Hself Hh'. subst self' h'. clear E.
  rewrite Hs, map_app in Hids, Hnames. simpl in Hids, Hnames.
  pose proof (NoDup_remove_2 _ _ _ Hids) as Hnoid.
  pose proof (NoDup_remove_2 _ _ _ Hnames) as Hnoname.
  rewrite <- map_app in Hnoid, Hnoname. rewrite Hid in Hnoid.
  assert (Hlook : MemoryClient.lookup
                    (MemoryClient.mk (MemoryClient._last_id self)
                                     (before ++ after)) id0 = None).
  { unfold MemoryClient.lookup. simpl. apply scan_absent. apply Forall_forall.
    intros x Hx. apply Z.eqb_neq. intros Hxid. apply Hnoid.
    rewrite <- Hxid. now apply in_map. }
  exists before, s, after. simpl.
  repeat split; auto using mem_bytes_after_munmap; intros;
    unfold MemoryClient.destroy, MemoryClient.read, MemoryClient.write;
    rewrite Hlook; reflexivity.
Qed.

Lemma destroyed_handle_is_retired_witness :
  let st :=
    Client.run (MemoryClient.new, zero_memory)
               [Client.Attach granting_os "test1" read_write 10 0;
                Client.Attach granting_os "test2" read_only 10 0] in
  let destroyed := MemoryClient.destroy granting_os (fst st) (snd st) 0 in
  let self' := snd (fst destroyed) in
  map MemoryClient.name (MemoryClient._servers self') = ["/test2"%string] /\
  MemoryClient.destroy granting_os self' (snd destroyed) 0 =
    (false, self', snd destroyed) /\
  MemoryClient.read self' (snd destroyed) 0 [x00] 1 = Returns (false, [x00]).
Proof.
  intros st destroyed self'.
  destruct (destroyed_handle_is_retired
              [Client.Attach granting_os "test1" read_write 10 0;
               Client.Attach granting_os "test2" read_only 10 0]
              zero_memory (snd st) (snd destroyed) (fst st) self' granting_os 0
              eq_refl eq_refl eq_refl)
    as (bf & s & af & _ & _ & _ & _ & _ & _ & _ & _ & _ & Hd & Hr & _).
  split; [reflexivity|]. split; [apply Hd | apply Hr].
Defined.

(** ** The destructor of a client *)

Lemma destructor_loop_releases os :
  (forall a s, munmap os a s <> -1) -> (forall fd, close os fd <> -1) ->
  forall i self m,
    List.length (MemoryClient._servers self) = i ->
    MemoryClient._servers (fst (Client.destructor_loop os i self m)) = [].
Proof.
  intros Hm Hc. induction i as [|i IH]; intros self m Hlen; simpl.
  - now apply length_zero_iff_nil.
  - destruct (MemoryClient._servers self) as [|s rest] eqn:Es;
      [discriminate|].
    destruct (destroy_servers os self m (MemoryClient.id s))
      as [(Hnone & _) | [(m' & E & _) | (before & s' & after & E & Hs & _)]].
    + unfold MemoryClient.lookup in Hnone. rewrite Es in Hnone. simpl in Hnone.
      rewrite Z.eqb_refl in Hnone. discriminate.
    + exfalso. revert E. unfold MemoryClient.destroy, MemoryClient.lookup.
      rewrite Es. simpl. rewrite Z.eqb_refl.
      destruct (Z.eqb_spec (munmap os (MemoryClient.addr s) (MemoryClient.size s))
                           (-1)) as [E|_]; [now apply Hm in E|].
      destruct (Z.eqb_spec (close os (MemoryClient.fd s)) (-1)) as [E|_];
        [now apply Hc in E|].
      discriminate.
    + rewrite E. apply IH. simpl.
      assert (Hl : List.length (before ++ s' :: after) = S i)
        by (rewrite <- Hs, Es; exact Hlen).
      rewrite length_app in *. simpl in Hl. lia.
Qed.

Lemma destructor_loop_stuck os i : forall self m s rest,
  MemoryClient._servers self = s :: rest ->
  munmap os (MemoryClient.addr s) (MemoryClient.size s) = -1 \/
  close os (MemoryClient.fd s) = -1 ->
  fst (Client.destructor_loop os i self m) = self /\
  mem_bytes (snd (Client.destructor_loop os i self m)) = mem_bytes m.
Proof.
  induction i as [|i IH]; intros self m s rest Es Hfail; simpl; [auto|].
  rewrite Es.
  assert (E : exists m',
             MemoryClient.destroy os self m (MemoryClient.id s) =
               (false, self, m') /\ mem_bytes m' = mem_bytes m).
  { unfold MemoryClient.destroy, MemoryClient.lookup.
    rewrite Es. simpl. rewrite Z.eqb_refl.
    destruct Hfail as [-> | Hcl]; [simpl; eauto using mem_bytes_after_munmap|].
    destruct (_ =? -1); simpl; [eauto using mem_bytes_after_munmap|].
    rewrite Hcl. simpl. eauto using mem_bytes_after_munmap. }
  destruct E as (m' & -> & Hb).
  destruct (IH self m' s rest Es Hfail) as [H1 H2].
  split; [exact H1 | congruence].
Qed.

(** X15.  The destructor of a client works on the first record, as many times
    as there are records.  When [munmap] and [close] never fail it leaves no
    record.  When [munmap] or [close] fails on the first record, every
    iteration fails on that same record and the client is left as it was:
    no record is released, and the bytes of the memory are untouched. *)
Theorem destructor_releases_records :
  forall (os : posix) (self : MemoryClient.t) (m : memory),
    ((forall a s, munmap os a s <> -1) -> (forall fd, close os fd <> -1) ->
     MemoryClient._servers (fst (Client.destructor os self m)) = []) /\
    (forall s rest,
        MemoryClient._servers self = s :: rest ->
        munmap os (MemoryClient.addr s) (MemoryClient.size s) = -1 \/
        close os (MemoryClient.fd s) = -1 ->
        fst (Client.destructor os self m) = self /\
        mem_bytes (snd (Client.destructor os self m)) = mem_bytes m).
Proof.
  intros os self m. unfold Client.destructor. split.
  - intros Hm Hc. now apply destructor_loop_releases.
  - intros s rest Es Hfail.
    now apply (destructor_loop_stuck os _ self m s rest).
Qed.

(** ** Defragmentation and the contents of the blocks *)

Lemma load_bytes_moved h h' a a' m :
  (forall i, 0 <= i < m -> h' (a' + i) = h (a + i)) ->
  load_bytes h' a' m = load_bytes h a m.
Proof.
  intros H. unfold load_bytes. apply map_ext_in. intros i Hi.
  apply in_seq in Hi. apply H. lia.
Qed.

(** X17.  Defragmentation walks the blocks in the order of the list, not of
    their offsets, and so can copy one block over another.  In a pool of
    [a + a + 1] bytes whose list of blocks in use is a block at offset [a]
    followed by a block at offset 0, both of [a] bytes, with one byte
    vacant, [allocate(2)] fails with [-1], and yet, after it, the second
    block reads as what the first block held: its own contents are lost. *)
Theorem failed_allocate_can_overwrite_block :
  forall (A a i1 i2 last : Z) (h : heap) (out : list byte),
    2 <= a -> a + a + 1 < 2 ^ 64 -> i1 <> i2 ->
    let self :=
      mk A [mkBlock i1 a a; mkBlock i2 0 a] true last (a + a + 1)
         [mkBlock (-1) (a + a) 1] in
    let '(r, self', h') := allocate self h 2 in
    r = -1 /\
    _in_use self' = [mkBlock i1 0 a; mkBlock i2 a a] /\
    read self' h' i1 out a = read self h i1 out a /\
    read self' h' i2 out a = read self h i1 out a.
Proof.
  intros A a i1 i2 last h out Ha Hlt Hne self. subst self.
  assert (E : allocate
                (mk A [mkBlock i1 a a; mkBlock i2 0 a] true last (a + a + 1)
                    [mkBlock (-1) (a + a) 1]) h 2 =
              (-1,
               mk A [mkBlock i1 0 a; mkBlock i2 a a] true last (a + a + 1)
                  [mkBlock (-1) (a + a) 1],
               memcpy (memcpy h (A + 0) (A + a) a) (A + a) (A + 0) a)).
  { unfold allocate, defrag.
    cbn -[Z.add Z.sub Z.eqb Z.gtb Z.geb Z.ltb Z.leb size_t_wrap memcpy].
    destruct (Z.gtb_spec 2 (a + a + 1)); [lia|].
    cbn -[Z.add Z.sub Z.eqb Z.gtb Z.geb Z.ltb Z.leb size_t_wrap memcpy].
    rewrite (size_t_wrap_small (0 + a)) by (unfold is_size_t; lia).
    rewrite (size_t_wrap_small (0 + a + a)) by (unfold is_size_t; lia).
    replace (size_t_wrap (a + a + 1 - (0 + a + a))) with 1
      by (rewrite size_t_wrap_small; unfold is_size_t; lia).
    destruct (Z.eqb_spec 0 a); [lia|].
    destruct (Z.eqb_spec (0 + a) 0); [lia|].
    cbn -[Z.add Z.sub memcpy].
    replace (0 + a + a) with (a + a) by lia.
    replace (0 + a) with a by lia. reflexivity. }
  rewrite E. split; [reflexivity|]. split; [reflexivity|].
  unfold read, lookup.
  cbn -[Z.add Z.sub Z.eqb Z.ltb memcpy load_bytes].
  rewrite !Z.eqb_refl.
  destruct (Z.eqb_spec i1 i2); [contradiction|].
  cbn -[Z.add Z.sub Z.eqb Z.ltb memcpy load_bytes].
  destruct (Z.ltb_spec a a); [lia|].
  unfold memcpy_to.
  split; f_equal; f_equal; apply load_bytes_moved; intros i Hi;
    unfold memcpy; zbool; f_equal; lia.
Qed.

Lemma failed_allocate_can_overwrite_block_witness :
  let self :=
    fst (run (mk 4096 [] true 0 5 [mkBlock (-1) 0 5], zero_heap)
             [Allocate 2; Allocate 2; Free 0; Allocate 2]) in
  let h :=
    snd (write self (snd (write self zero_heap 1 [x41; x41] 2))
               2 [x42; x42] 2) in
  read self h 2 [x00; x00] 2 = (true, [x42; x42]) /\
  fst (fst (allocate self h 2)) = -1 /\
  read (snd (fst (allocate self h 2))) (snd (allocate self h 2)) 2 [x00; x00] 2
  = (true, [x41; x41]).
Proof.
  intros self h.
  pose proof (failed_allocate_can_overwrite_block
                4096 2 1 2 3 h [x00; x00]) as H.
  cbv zeta in H.
  change (mk 4096 [mkBlock 1 2 2; mkBlock 2 0 2] true 3 (2 + 2 + 1)
             [mkBlock (-1) (2 + 2) 1]) with self in H.
  destruct (allocate self h 2) as [[r self'] h'].
  destruct H as (Hr & _ & _ & H2); try lia.
  split; [reflexivity|]. split; [exact Hr|].
  simpl. rewrite H2. reflexivity.
Defined.
